(** * Vote counting in the Q&A platform

    A shallow embedding of the vote path of the repository:

    - [database/schema.sql]: the [votes] table with its constraints, the
      [votes] counter column of [questions] and [answers], and the trigger
      function [update_vote_count] fired by [on_vote_change];
    - [src/app/api/vote/route.ts]: the [POST] handler of [/api/vote];
    - [src/lib/api.ts] and [src/components/ui/VotingButtons.tsx]: the
      client call [vote] and the two [handleVote] handlers.

    Beside the vote path proper: the row policies of the [votes] table,
    [getUserVote] of [src/lib/api.ts] with the effect that loads the
    user's vote when the buttons are mounted, and the page list of
    [src/components/ui/Pagination.tsx].

    Identifiers are UUIDs, modelled as numbers; the [target_id] of a
    request is whatever the body carries, a UUID or not ([id_text]).
    Timestamps ([created_at],
    [updated_at]) play no part in the vote logic and are left out of the
    rows, as are the text columns of questions and answers. *)

From stdpp Require Import gmap strings list fin_maps sorting.

Local Open Scope Z_scope.

Abbreviation uuid := N.

(** The value a request carries where the store expects an identifier:
    the text of a UUID, or another truthy value (a text that is no UUID, a
    number, an object), which the store cannot read as a UUID. *)
Inductive id_text :=
  | uuid_text (id : uuid)
  | not_uuid.

(** ** Results of the data store *)

(** Errors the store reports, with the code the client sees in
    [error.code]: the SQLSTATE of a failed statement, or the code of the
    REST layer. *)
Inductive store_error :=
  | check_violation
  | unique_violation
  | foreign_key_violation
  | numeric_value_out_of_range
  | invalid_text_representation
  | feature_not_supported
  | PGRST116
  | PGRST202.

Definition code (e : store_error) : string :=
  match e with
  | check_violation => "23514"
  | unique_violation => "23505"
  | foreign_key_violation => "23503"
  | numeric_value_out_of_range => "22003"
  | invalid_text_representation => "22P02"
  | feature_not_supported => "0A000"
  | PGRST116 => "PGRST116"
  | PGRST202 => "PGRST202"
  end.

Inductive result (A : Type) :=
  | Ok (data : A)
  | Error (error : store_error).
Arguments Ok {A} data.
Arguments Error {A} error.

Module Schema.

(** ** Tables *)

(** A row of [public.votes] without its primary key; the table maps
    the key [id] to the rest of the row.  [user_id] is nullable,
    [target_id], [target_type] and [vote_type] are NOT NULL. *)
Record vote := mk_vote {
  user_id : option uuid;
  target_id : uuid;
  target_type : string;
  vote_type : string
}.

#[global] Instance vote_eq_dec : EqDecision vote.
Proof. solve_decision. Defined.

(** [questions] and [answers] are kept as the map from the row's [id] to
    its [votes] column, an INTEGER. *)
Record database := mk_database {
  profiles : gset uuid;
  questions : gmap uuid Z;
  answers : gmap uuid Z;
  votes : gmap uuid vote
}.

Definition set_questions (q : gmap uuid Z) (d : database) : database :=
  mk_database (profiles d) q (answers d) (votes d).
Definition set_answers (a : gmap uuid Z) (d : database) : database :=
  mk_database (profiles d) (questions d) a (votes d).
Definition set_votes (v : gmap uuid vote) (d : database) : database :=
  mk_database (profiles d) (questions d) (answers d) v.

(** ** INTEGER arithmetic *)

Definition int4_min : Z := -2147483648.
Definition int4_max : Z := 2147483647.

(** The result of an INTEGER operation: out of range is an error, there is
    no wrap-around. *)
Definition int4 (z : Z) : option Z :=
  if (int4_min <=? z) && (z <=? int4_max) then Some z else None.

Definition int4pl (a b : Z) : option Z := int4 (a + b).
Definition int4mi (a b : Z) : option Z := int4 (a - b).

(** ** The trigger function [update_vote_count] *)

(** [CASE WHEN vote_type = 'upvote' THEN 1 ELSE -1 END] *)
Definition vote_value (vt : string) : Z :=
  if bool_decide (vt = "upvote") then 1 else -1.

(** [UPDATE tbl SET votes = f(votes) WHERE id = key]: no row, no change. *)
Definition update_votes_where_id
    (tbl : gmap uuid Z) (key : uuid) (f : Z → option Z) : option (gmap uuid Z) :=
  match tbl !! key with
  | None => Some tbl
  | Some v => match f v with
              | Some v' => Some (<[key := v']> tbl)
              | None => None
              end
  end.

Inductive tg_op :=
  | TG_INSERT (NEW : vote)
  | TG_UPDATE (OLD NEW : vote)
  | TG_DELETE (OLD : vote).

(** [None] is the error raised by the arithmetic; the statement that fired
    the trigger fails with it. *)
Definition update_vote_count (op : tg_op) (d : database) : option database :=
  match op with
  | TG_INSERT NEW =>
      if bool_decide (target_type NEW = "question") then
        q ← update_votes_where_id (questions d) (target_id NEW)
              (λ votes, int4pl votes (vote_value (vote_type NEW)));
        Some (set_questions q d)
      else
        a ← update_votes_where_id (answers d) (target_id NEW)
              (λ votes, int4pl votes (vote_value (vote_type NEW)));
        Some (set_answers a d)
  | TG_UPDATE OLD NEW =>
      if bool_decide (target_type OLD = "question") then
        q ← update_votes_where_id (questions d) (target_id NEW)
              (λ votes, s ← int4pl votes (vote_value (vote_type NEW));
                        int4mi s (vote_value (vote_type OLD)));
        Some (set_questions q d)
      else
        a ← update_votes_where_id (answers d) (target_id NEW)
              (λ votes, s ← int4pl votes (vote_value (vote_type NEW));
                        int4mi s (vote_value (vote_type OLD)));
        Some (set_answers a d)
  | TG_DELETE OLD =>
      if bool_decide (target_type OLD = "question") then
        q ← update_votes_where_id (questions d) (target_id OLD)
              (λ votes, int4mi votes (vote_value (vote_type OLD)));
        Some (set_questions q d)
      else
        a ← update_votes_where_id (answers d) (target_id OLD)
              (λ votes, int4mi votes (vote_value (vote_type OLD)));
        Some (set_answers a d)
  end.

(** ** Constraints of [public.votes] *)

(** The two CHECK constraints. *)
Definition check_constraints (r : vote) : bool :=
  bool_decide (target_type r ∈ ["question"; "answer"])
  && bool_decide (vote_type r ∈ ["upvote"; "downvote"]).

(** [UNIQUE(user_id, target_id, target_type)]: two rows collide when they
    agree on the three columns; a NULL [user_id] collides with nothing. *)
Definition collides (r r' : vote) : Prop :=
  is_Some (user_id r) ∧ user_id r = user_id r'
  ∧ target_id r = target_id r' ∧ target_type r = target_type r'.

#[global] Instance collides_dec r r' : Decision (collides r r').
Proof. unfold collides. apply _. Defined.

Definition unique_ok (tbl : gmap uuid vote) (r : vote) : bool :=
  bool_decide (map_Forall (λ _ r', ¬ collides r r') tbl).

(** [user_id UUID REFERENCES public.profiles(id)] *)
Definition foreign_key_ok (d : database) (r : vote) : bool :=
  match user_id r with
  | None => true
  | Some u => bool_decide (u ∈ profiles d)
  end.

(** ** Row-level changes of [public.votes]

    Each one checks the constraints, changes the table and runs the AFTER
    ... FOR EACH ROW trigger; an error anywhere leaves the database as it
    was. *)

Definition fire (op : tg_op) (d : database) : result database :=
  match update_vote_count op d with
  | Some d' => Ok d'
  | None => Error numeric_value_out_of_range
  end.

Definition insert_vote (id : uuid) (NEW : vote) (d : database) : result database :=
  if negb (check_constraints NEW) then Error check_violation
  else if bool_decide (is_Some (votes d !! id)) then Error unique_violation
  else if negb (unique_ok (votes d) NEW) then Error unique_violation
  else if negb (foreign_key_ok d NEW) then Error foreign_key_violation
  else fire (TG_INSERT NEW) (set_votes (<[id := NEW]> (votes d)) d).

(** The row [id] becomes [NEW] under the key [new_id]; a statement that
    matches no row succeeds and changes nothing. *)
Definition update_vote (id new_id : uuid) (NEW : vote) (d : database) : result database :=
  match votes d !! id with
  | None => Ok d
  | Some OLD =>
      let others := delete id (votes d) in
      if negb (check_constraints NEW) then Error check_violation
      else if bool_decide (is_Some (others !! new_id)) then Error unique_violation
      else if negb (unique_ok others NEW) then Error unique_violation
      else if negb (foreign_key_ok d NEW) then Error foreign_key_violation
      else fire (TG_UPDATE OLD NEW) (set_votes (<[new_id := NEW]> others) d)
  end.

Definition delete_vote (id : uuid) (d : database) : result database :=
  match votes d !! id with
  | None => Ok d
  | Some OLD => fire (TG_DELETE OLD) (set_votes (delete id (votes d)) d)
  end.

Inductive mutation :=
  | INSERT (id : uuid) (NEW : vote)
  | UPDATE (id new_id : uuid) (NEW : vote)
  | DELETE (id : uuid).

Definition apply (m : mutation) (d : database) : result database :=
  match m with
  | INSERT id NEW => insert_vote id NEW d
  | UPDATE id new_id NEW => update_vote id new_id NEW d
  | DELETE id => delete_vote id d
  end.

(** The database after the statement: a failed statement is rolled back. *)
Definition exec (m : mutation) (d : database) : database :=
  match apply m d with
  | Ok d' => d'
  | Error _ => d
  end.

End Schema.

(** ** The REST layer used by the route *)

Module Store.
Import Schema.

(** [from('votes').select('*').eq('user_id', u).eq('target_id', t)
    .eq('target_type', ty)]: the rows with their keys.  The filter on
    [target_id] compares with a UUID: a value that is none makes the
    statement fail with [invalid input syntax for type uuid]. *)
Definition select_votes (d : database) (u : uuid) (t : id_text) (ty : string) :
    result (list (uuid * vote)) :=
  match t with
  | uuid_text t =>
      Ok (map_to_list
            (filter (λ kv : uuid * vote,
                       user_id kv.2 = Some u ∧ target_id kv.2 = t ∧ target_type kv.2 = ty)
                    (votes d)))
  | not_uuid => Error invalid_text_representation
  end.

(** [.single()]: exactly one row, or the error PGRST116 with no data; the
    error of a failed statement is passed on. *)
Definition single {A} (rows : result (list A)) : option A * option store_error :=
  match rows with
  | Ok [row] => (Some row, None)
  | Ok _ => (None, Some PGRST116)
  | Error e => (None, Some e)
  end.

(** [from('votes').insert({ user_id, target_id, target_type, vote_type })]:
    the value of [target_id] is stored in a UUID column. *)
Definition insert_votes (gen user_id : uuid) (target_id : id_text)
    (target_type vote_type : string) (d : database) : result database :=
  match target_id with
  | uuid_text t => insert_vote gen (mk_vote (Some user_id) t target_type vote_type) d
  | not_uuid => Error invalid_text_representation
  end.

(** The functions the schema declares, with the names of their arguments:
    all three take none and return TRIGGER. *)
Definition functions : list (string * list string) :=
  [("handle_new_user", []); ("update_vote_count", []); ("update_updated_at", [])].

(** [rpc(fn, args)]: the call is resolved by the function's name and the
    names of the arguments; a trigger function cannot be called directly.
    Either way nothing is executed. *)
Definition rpc (fn : string) (args : list string) (d : database) : result database :=
  if bool_decide ((fn, args) ∈ functions) then Error feature_not_supported
  else Error PGRST202.

End Store.

(** ** The vote route, [POST /api/vote] *)

Module Route.
Import Schema Store.

(** The JSON body after [request.json()].  The route takes [target_id]
    as it comes: [None] is an absent or falsy value, which [!target_id]
    rejects; any other value is passed to the store unchecked, be it the
    text of a UUID or not.  A text field is absent ([None]) or holds its
    text; an absent field and an empty text are the values [!x]
    rejects. *)
Record vote_body := mk_body {
  body_target_id : option id_text;
  body_target_type : option string;
  body_vote_type : option string
}.

(** The result of [supabase.auth.getUser()]. *)
Record getUser_result := mk_getUser {
  user : option uuid;
  authError : bool
}.

Inductive json :=
  | error_body (error : string)
  | error_message_body (error : store_error)
  | error_details_body (error : string)
  | success_body.

Record response := mk_response {
  status : Z;
  body : json
}.

Inductive console_line :=
  | console_log (label : string)
  | console_error (label : string) (error : option store_error).

Abbreviation outcome := (database * response * list console_line)%type.

(** Lines 110-121: the remote call after the vote is processed; its error
    is logged and not returned. *)
Definition finish (target_id : id_text) (target_type : string)
    (d : database) (log : list console_line) : outcome :=
  match rpc "update_vote_count" ["p_target_id"; "p_target_type"] d with
  | Error updateCountError =>
      (d, mk_response 200 success_body,
       log ++ [console_error "Vote count update error:" (Some updateCountError)])
  | Ok d' => (d', mk_response 200 success_body, log)
  end.

(** Lines 62-108: the one change of the votes table, chosen by the
    existing vote. *)
Definition change_votes (gen : uuid) (user_id : uuid) (target_id : id_text)
    (target_type vote_type : string) (existingVote : option (uuid * vote))
    (d : database) (log : list console_line) : outcome :=
  match existingVote with
  | Some (id, existing) =>
      if bool_decide (Schema.vote_type existing = vote_type) then
        match delete_vote id d with
        | Error deleteError =>
            (d, mk_response 500 (error_message_body deleteError),
             log ++ [console_error "Vote deletion error:" (Some deleteError)])
        | Ok d' =>
            finish target_id target_type d' (log ++ [console_log "Vote removed"])
        end
      else
        match update_vote id id
                (mk_vote (Schema.user_id existing) (Schema.target_id existing)
                         (Schema.target_type existing) vote_type) d with
        | Error updateError =>
            (d, mk_response 500 (error_message_body updateError),
             log ++ [console_error "Vote update error:" (Some updateError)])
        | Ok d' =>
            finish target_id target_type d' (log ++ [console_log "Vote updated"])
        end
  | None =>
      match insert_votes gen user_id target_id target_type vote_type d with
      | Error insertError =>
          (d, mk_response 500 (error_message_body insertError),
           log ++ [console_error "Vote insertion error:" (Some insertError)])
      | Ok d' =>
          finish target_id target_type d' (log ++ [console_log "New vote created"])
      end
  end.

(** [voteCheckError && voteCheckError.code !== 'PGRST116'] *)
Definition check_failed (voteCheckError : option store_error) : option store_error :=
  match voteCheckError with
  | Some e => if bool_decide (code e = "PGRST116") then None else Some e
  | None => None
  end.

(** Lines 48-121, for the signed-in user [user_id]. *)
Definition process (gen : uuid) (user_id : uuid) (target_id : id_text)
    (target_type vote_type : string) (d : database)
    (log : list console_line) : outcome :=
  let '(existingVote, voteCheckError) :=
    single (select_votes d user_id target_id target_type) in
  match check_failed voteCheckError with
  | Some e =>
      (d, mk_response 500 (error_message_body e),
       log ++ [console_error "Vote check error:" (Some e)])
  | None =>
      change_votes gen user_id target_id target_type vote_type existingVote d log
  end.

(** The handler.  [request] is [None] when reading the body throws;
    [gen] is the key the store generates for a new row. *)
Definition POST (gen : uuid) (auth : getUser_result)
    (request : option vote_body) (d : database) : outcome :=
  match request with
  | None =>
      (d, mk_response 500 (error_details_body "Internal server error"),
       [console_error "API error:" None])
  | Some b =>
      let log := [console_log "Processing vote:"] in
      match body_target_id b, body_target_type b, body_vote_type b with
      | Some target_id, Some target_type, Some vote_type =>
          if bool_decide (target_type = "") || bool_decide (vote_type = "") then
            (d, mk_response 400 (error_body "Missing required fields"), log)
          else if negb (bool_decide (target_type ∈ ["question"; "answer"])) then
            (d, mk_response 400 (error_body "Invalid target type"), log)
          else if negb (bool_decide (vote_type ∈ ["upvote"; "downvote"])) then
            (d, mk_response 400 (error_body "Invalid vote type"), log)
          else
            match authError auth, user auth with
            | false, Some user_id =>
                process gen user_id target_id target_type vote_type d log
            | _, _ =>
                (d, mk_response 401 (error_body "Authentication required"), log)
            end
      | _, _, _ =>
          (d, mk_response 400 (error_body "Missing required fields"), log)
      end
  end.

End Route.

(** ** The client: [vote] and the voting buttons *)

Module Client.
Import Route.

(** [response.ok] *)
Definition ok (r : response) : bool := (200 <=? status r) && (status r <=? 299).

(** [result.success] *)
Definition success (r : response) : bool :=
  match body r with
  | success_body => true
  | _ => false
  end.

(** [vote] of [lib/api.ts], given the response [fetch] received. *)
Definition vote (r : response) : bool :=
  if negb (ok r) then false else success r.

(** The [Vote] object the component keeps; [None] in [id] or [user_id] is
    the empty text. *)
Record Vote := mk_Vote {
  id : option uuid;
  user_id : option uuid;
  target_id : uuid;
  target_type : string;
  vote_type : string;
  created_at : string
}.

Record VotingButtonsProps := mk_props {
  targetId : uuid;
  targetType : string;
  currentVotes : Z;
  isAuthenticated : bool
}.

(** The component's state, and the calls of [onVoteChange] it made. *)
Record state := mk_state {
  userVote : option Vote;
  voteCount : Z;
  isLoading : bool;
  showLoginMessage : bool;
  onVoteChange : list Z
}.

(** [userVote?.id || ''] *)
Definition kept_id (userVote : option Vote) : option uuid :=
  match userVote with
  | Some v => id v
  | None => None
  end.

(** Lines 78-104 and 271-292: the count and the vote kept after [vote]
    returned [true]. *)
Definition commit (props : VotingButtonsProps) (voteType now : string) (st : state) : state :=
  let newVoteCount :=
    match userVote st with
    | Some v =>
        let oldVoteValue := if bool_decide (vote_type v = "upvote") then 1 else -1 in
        let newVoteValue := if bool_decide (voteType = "upvote") then 1 else -1 in
        voteCount st - oldVoteValue + newVoteValue
    | None =>
        voteCount st + (if bool_decide (voteType = "upvote") then 1 else -1)
    end in
  mk_state
    (Some (mk_Vote (kept_id (userVote st)) None (targetId props) (targetType props)
                   voteType now))
    newVoteCount (isLoading st) (showLoginMessage st)
    (onVoteChange st ++ [newVoteCount]).

Definition setIsLoading (b : bool) (st : state) : state :=
  mk_state (userVote st) (voteCount st) b (showLoginMessage st) (onVoteChange st).

(** [handleVote] of [VotingButtons]: [r] is the response to the request it
    sends, [now] the time it reads.  The state is the one the handler
    leaves; the timer that hides the login message later is not part of
    it. *)
Definition handleVote (props : VotingButtonsProps) (voteType now : string)
    (r : response) (st : state) : state :=
  if negb (isAuthenticated props) then
    mk_state (userVote st) (voteCount st) (isLoading st) true (onVoteChange st)
  else
    let st := setIsLoading true st in
    let st := if vote r then commit props voteType now st else st in
    setIsLoading false st.

(** [handleVote] of [CompactVotingButtons], which has no login message. *)
Definition compact_handleVote (props : VotingButtonsProps) (voteType now : string)
    (r : response) (st : state) : state :=
  if negb (isAuthenticated props) then st
  else
    let st := setIsLoading true st in
    let st := if vote r then commit props voteType now st else st in
    setIsLoading false st.

End Client.

(** ** What the specification speaks of *)

Module Spec.
Import Schema Store Route.

(** The table of a kind of votable, and a votable's score. *)
Definition table (ty : string) (d : database) : gmap uuid Z :=
  if bool_decide (ty = "question") then questions d else answers d.

Definition score (d : database) (ty : string) (id : uuid) : option Z :=
  table ty d !! id.

Definition kinds : list string := ["question"; "answer"].
Definition directions : list string := ["upvote"; "downvote"].

(** The vote rows of direction [vt] that reference the votable [id] of
    kind [ty]. *)
Definition references (ty : string) (id : uuid) (vt : string) (kv : uuid * vote) : Prop :=
  target_type kv.2 = ty ∧ target_id kv.2 = id ∧ vote_type kv.2 = vt.

#[global] Instance references_dec ty id vt kv : Decision (references ty id vt kv).
Proof. unfold references. apply _. Defined.

Definition count_votes (tbl : gmap uuid vote) (ty : string) (id : uuid) (vt : string) : Z :=
  Z.of_nat (size (filter (references ty id vt) tbl)).

Definition net_votes (tbl : gmap uuid vote) (ty : string) (id : uuid) : Z :=
  count_votes tbl ty id "upvote" - count_votes tbl ty id "downvote".

Definition score_consistent (d : database) : Prop :=
  ∀ ty id s, ty ∈ kinds → score d ty id = Some s → s = net_votes (votes d) ty id.

(** The constraints of the votes table, as a property of a database. *)
Definition rows_ok (d : database) : Prop :=
  map_Forall (λ _ r, check_constraints r = true) (votes d)
  ∧ (∀ i j r r', votes d !! i = Some r → votes d !! j = Some r' →
                 collides r r' → i = j)
  ∧ map_Forall (λ _ r, foreign_key_ok d r = true) (votes d).

(** The [votes] columns hold INTEGER values. *)
Definition integer (s : Z) : Prop := int4_min ≤ s ≤ int4_max.

Definition integer_scores (d : database) : Prop :=
  map_Forall (λ _ s, integer s) (questions d)
  ∧ map_Forall (λ _ s, integer s) (answers d).

Definition constraints_hold (d : database) : Prop :=
  rows_ok d ∧ integer_scores d.

(** No vote yet, every score 0. *)
Definition initial (d : database) : Prop :=
  votes d = ∅ ∧ ∀ ty id s, ty ∈ kinds → score d ty id = Some s → s = 0.

(** A change of a vote row that leaves the row's target where it was. *)
Definition keeps_target (m : mutation) (d : database) : Prop :=
  match m with
  | UPDATE id _ NEW =>
      ∀ OLD, votes d !! id = Some OLD →
             target_id NEW = target_id OLD ∧ target_type NEW = target_type OLD
  | _ => True
  end.

(** Databases reached by statements on the votes table: all of them, or
    those that keep the target of the rows they update. *)
Inductive reachable (d0 : database) : database → Prop :=
  | reachable_refl : reachable d0 d0
  | reachable_step d m : reachable d0 d → reachable d0 (exec m d).

Inductive reachable_keeping (d0 : database) : database → Prop :=
  | reachable_keeping_refl : reachable_keeping d0 d0
  | reachable_keeping_step d m :
      reachable_keeping d0 d → keeps_target m d → reachable_keeping d0 (exec m d).

(** What a row adds to the net count of the votable [id] of kind [ty]. *)
Definition weight (r : vote) (ty : string) (id : uuid) : Z :=
  if bool_decide (target_type r = ty ∧ target_id r = id) then vote_value (vote_type r)
  else 0.

(** The counter arithmetic as the specification words it: [delta] of a
    direction, and the change of the score a row-level event asks for. *)
Definition delta (direction : string) : Z :=
  if bool_decide (direction = "upvote") then 1
  else if bool_decide (direction = "downvote") then -1
  else 0.

Definition expected_change (op : tg_op) : Z :=
  match op with
  | TG_INSERT NEW => delta (vote_type NEW)
  | TG_UPDATE OLD NEW => delta (vote_type NEW) - delta (vote_type OLD)
  | TG_DELETE OLD => - delta (vote_type OLD)
  end.

(** The votable the event is about. *)
Definition event_kind (op : tg_op) : string :=
  match op with
  | TG_INSERT NEW => target_type NEW
  | TG_UPDATE OLD _ => target_type OLD
  | TG_DELETE OLD => target_type OLD
  end.

Definition event_target (op : tg_op) : uuid :=
  match op with
  | TG_INSERT NEW => target_id NEW
  | TG_UPDATE OLD _ => target_id OLD
  | TG_DELETE OLD => target_id OLD
  end.

(** The rows of the event satisfy the CHECK constraints, and an update
    leaves the vote on its target. *)
Definition ledger_event (op : tg_op) : Prop :=
  match op with
  | TG_INSERT NEW => check_constraints NEW = true
  | TG_UPDATE OLD NEW =>
      check_constraints OLD = true ∧ check_constraints NEW = true
      ∧ target_id NEW = target_id OLD ∧ target_type NEW = target_type OLD
  | TG_DELETE OLD => check_constraints OLD = true
  end.

(** The sums the branch of the trigger computes from the score [s] are
    INTEGER values: [s + new] on insert, [s + new] and then
    [s + new - old] on update, [s - old] on delete. *)
Definition sums_fit (op : tg_op) (s : Z) : Prop :=
  match op with
  | TG_INSERT NEW => integer (s + delta (vote_type NEW))
  | TG_UPDATE OLD NEW =>
      integer (s + delta (vote_type NEW))
      ∧ integer (s + delta (vote_type NEW) - delta (vote_type OLD))
  | TG_DELETE OLD => integer (s - delta (vote_type OLD))
  end.

(** Two questions and one voter; the voter's upvote on the first question
    is then moved to the second by an UPDATE of [target_id]. *)
Definition two_questions : database :=
  mk_database {[7%N]} {[1%N := 0; 2%N := 0]} ∅ ∅.

Definition upvote_on (target : uuid) : vote :=
  mk_vote (Some 7%N) target "question" "upvote".

Definition downvote_on (target : uuid) : vote :=
  mk_vote (Some 7%N) target "question" "downvote".

Definition retargeted : database :=
  exec (UPDATE 10 10 (upvote_on 2)) (exec (INSERT 10 (upvote_on 1)) two_questions).

(** The database after the voter's upvote on the first question. *)
Definition upvoted : database :=
  exec (INSERT 10 (upvote_on 1)) two_questions.

(** A signed-in voter and no question at all. *)
Definition no_questions : database := mk_database {[7%N]} ∅ ∅ ∅.

(** A question whose score is the largest INTEGER, without and with the
    voter's upvote on it. *)
Definition at_the_bound : database :=
  mk_database {[7%N]} {[1%N := 2147483647]} ∅ ∅.

Definition held_at_the_bound : database :=
  mk_database {[7%N]} {[1%N := 2147483647]} ∅ {[10%N := upvote_on 1]}.

(** The voter's stance on a target. *)
Inductive vote_state := NoVote | Up | Down.

Definition effective_state (d : database) (voter target : uuid) (ty : string) : vote_state :=
  match (single (select_votes d voter (uuid_text target) ty)).1 with
  | Some (_, r) => if bool_decide (vote_type r = "upvote") then Up else Down
  | None => NoVote
  end.

(** The voter holds the vote row [r], stored under the key [i]. *)
Definition holds_vote (d : database) (voter target : uuid) (ty : string)
    (i : uuid) (r : vote) : Prop :=
  votes d !! i = Some r
  ∧ user_id r = Some voter ∧ target_id r = target ∧ target_type r = ty.

Definition no_vote (d : database) (voter target : uuid) (ty : string) : Prop :=
  ∀ i r, ¬ holds_vote d voter target ty i r.

(** The score of the target, if the target exists, stays an INTEGER when
    [delta] is added. *)
Definition fits (d : database) (ty : string) (target : uuid) (delta : Z) : Prop :=
  ∀ s, score d ty target = Some s → int4_min ≤ s + delta ≤ int4_max.

(** The request of a signed-in voter. *)
Definition signed_in (voter : uuid) : getUser_result := mk_getUser (Some voter) false.

Definition submit (target : uuid) (ty vt : string) : option vote_body :=
  Some (mk_body (Some (uuid_text target)) (Some ty) (Some vt)).

Definition submitVote (gen voter target : uuid) (ty vt : string) (d : database) : outcome :=
  POST gen (signed_in voter) (submit target ty vt) d.

(** The answer to a call whose one statement had the result [r], and the
    database and answer after the statement [m]. *)
Definition answer_of (r : result database) : response :=
  match r with
  | Ok _ => mk_response 200 success_body
  | Error e => mk_response 500 (error_message_body e)
  end.

Definition applied (m : mutation) (d : database) : database * response :=
  (exec m d, answer_of (apply m d)).

(** The line the route logs when the remote call after the vote fails. *)
Definition rpc_line : console_line :=
  console_error "Vote count update error:" (Some PGRST202).

(** The score update of the trigger raises for the row the statement [m]
    changes. *)
Definition trigger_raises (m : mutation) (d : database) : Prop :=
  match m with
  | INSERT id NEW =>
      update_vote_count (TG_INSERT NEW) (set_votes (<[id := NEW]> (votes d)) d) = None
  | UPDATE id new_id NEW =>
      ∃ OLD, votes d !! id = Some OLD
             ∧ update_vote_count (TG_UPDATE OLD NEW)
                 (set_votes (<[new_id := NEW]> (delete id (votes d))) d) = None
  | DELETE id =>
      ∃ OLD, votes d !! id = Some OLD
             ∧ update_vote_count (TG_DELETE OLD)
                 (set_votes (delete id (votes d)) d) = None
  end.

(** The statement the specification has the vote service issue for the
    voter's existing vote: an insert when there is none, a delete when it
    has the requested direction, an update of the direction otherwise. *)
Definition issues (gen voter target : uuid) (ty vt : string) (d : database)
    (m : mutation) : Prop :=
  let NEW := mk_vote (Some voter) target ty vt in
  (no_vote d voter target ty ∧ m = INSERT gen NEW)
  ∨ (∃ i r, holds_vote d voter target ty i r ∧ vote_type r = vt ∧ m = DELETE i)
  ∨ (∃ i r, holds_vote d voter target ty i r ∧ vote_type r ≠ vt ∧ m = UPDATE i i NEW).



(** A body with its three fields, of a known kind and direction; the
    value of [target_id] is any the route lets through. *)
Definition well_formed (request : option vote_body) : Prop :=
  ∃ target ty vt,
    request = Some (mk_body (Some target) (Some ty) (Some vt))
    ∧ ty ∈ kinds ∧ vt ∈ directions.

(** A caller without identity, and a request for a kind that is neither
    question nor answer. *)
Definition anonymous : getUser_result := mk_getUser None false.

Definition vote_on_comment : option vote_body := submit 1 "comment" "upvote".

(** The props and state of the buttons of a voter who upvoted the first
    question. *)
Definition shown_props : Client.VotingButtonsProps := Client.mk_props 1 "question" 1 true.

Definition shown_vote : Client.Vote :=
  Client.mk_Vote (Some 10%N) (Some 7%N) 1 "question" "upvote" "2025-07-12T10:00:00.000Z".

Definition shown_state : Client.state :=
  Client.mk_state (Some shown_vote) 1 false false [].

(** The caller has no verifiable identity. *)
Definition unauthenticated (auth : getUser_result) : Prop :=
  authError auth = true ∨ user auth = None.

End Spec.

(** ** The row policies of [public.votes] *)

Module Policies.
Import Schema.

(** The caller of a statement sent with the public key: the user's id when
    signed in (role authenticated), [None] for the role anon, whose
    [auth.uid()] is NULL. *)

(** [auth.role() = 'authenticated'] *)
Definition authenticated (caller : option uuid) : bool :=
  match caller with
  | Some _ => true
  | None => false
  end.

(** [auth.uid() = user_id]; a NULL on either side is not true. *)
Definition own_row (caller : option uuid) (r : vote) : bool :=
  match caller, user_id r with
  | Some u, Some v => bool_decide (u = v)
  | _, _ => false
  end.

(** A statement under the policies: refused by a policy, or run. *)
Inductive checked :=
  | violates_policy
  | runs (r : result database).

(** - "Authenticated users can vote": INSERT WITH CHECK on the role;
    - "Users can update their own votes": UPDATE USING, which hides the
      rows of others from the statement and, no WITH CHECK being given,
      is also checked on the new row;
    - "Users can delete their own votes": DELETE USING.
    A statement from which the policy hides its row matches no row. *)
Definition through_policies (caller : option uuid) (m : mutation) (d : database) : checked :=
  match m with
  | INSERT id NEW =>
      if authenticated caller then runs (apply m d) else violates_policy
  | UPDATE id new_id NEW =>
      match votes d !! id with
      | None => runs (Ok d)
      | Some OLD =>
          if own_row caller OLD then
            if own_row caller NEW then runs (apply m d) else violates_policy
          else runs (Ok d)
      end
  | DELETE id =>
      match votes d !! id with
      | None => runs (Ok d)
      | Some OLD => if own_row caller OLD then runs (apply m d) else runs (Ok d)
      end
  end.

(** The database after the statement. *)
Definition after (c : checked) (d : database) : database :=
  match c with
  | runs (Ok d') => d'
  | _ => d
  end.

End Policies.

(** ** [getUserVote] of [lib/api.ts] *)

Module Api.
Import Schema Store Route.

(** The row read back for the signed-in user, with its key; [None] is
    [null].  [targetId] is the id of the question or answer the page
    shows. *)
Definition getUserVote (auth : getUser_result) (targetId : uuid) (targetType : string)
    (d : database) : option (uuid * vote) :=
  match authError auth, user auth with
  | false, Some user_id =>
      let '(vote, error) :=
        single (select_votes d user_id (uuid_text targetId) targetType) in
      match check_failed error with
      | Some _ => None
      | None => vote
      end
  | _, _ => None
  end.

End Api.

(** ** [components/ui/Pagination.tsx] *)

Module Pagination.

(** An entry of the page list: a page number or ['...']. *)
Inductive entry :=
  | number (page : Z)
  | dots.

(** [for (let i = first; i <= last; i++) pages.push(i)] *)
Definition push_range (first last : Z) : list entry :=
  number <$> seqZ first (last - first + 1).

Definition getVisiblePages (currentPage totalPages maxVisiblePages : Z) : list entry :=
  if totalPages <=? maxVisiblePages then push_range 1 totalPages
  else
    let halfVisible := maxVisiblePages `div` 2 in
    if currentPage <=? halfVisible then
      push_range 1 (maxVisiblePages - 1) ++ [dots; number totalPages]
    else if totalPages - halfVisible <? currentPage then
      [number 1; dots] ++ push_range (totalPages - maxVisiblePages + 2) totalPages
    else
      [number 1; dots]
      ++ push_range (currentPage - halfVisible + 1) (currentPage + halfVisible - 1)
      ++ [dots; number totalPages].

(** What the component shows: nothing for a single page. *)
Definition Pagination (currentPage totalPages maxVisiblePages : Z) : option (list entry) :=
  if totalPages <=? 1 then None
  else Some (getVisiblePages currentPage totalPages maxVisiblePages).

(** The page [onPageChange] is called with, if it is called. *)
Definition handlePageChange (currentPage totalPages page : Z) : option Z :=
  if negb (page =? currentPage) && (1 <=? page) && (page <=? totalPages)
  then Some page else None.

(** [startItem] and [endItem] of [PaginationInfo]. *)
Definition startItem (currentPage itemsPerPage : Z) : Z :=
  (currentPage - 1) * itemsPerPage + 1.

Definition endItem (currentPage itemsPerPage totalItems : Z) : Z :=
  Z.min (currentPage * itemsPerPage) totalItems.

(** The page numbers of a list. *)
Definition numbers (l : list entry) : list Z :=
  omap (λ e, match e with number n => Some n | dots => None end) l.

End Pagination.

(** ** The state of [VotingButtons] when it is mounted *)

Module Buttons.
Import Schema Route Api.

(** The [useState] values of the component when it is mounted. *)
Definition mounted (props : Client.VotingButtonsProps) : Client.state :=
  Client.mk_state None (Client.currentVotes props) false false [].

(** A row of the votes table as the client's [Vote]; [created_at] is the
    column the rows of the model leave out. *)
Definition Vote_of (created_at : string) (row : uuid * vote) : Client.Vote :=
  Client.mk_Vote (Some row.1) (user_id row.2) (target_id row.2) (target_type row.2)
    (vote_type row.2) created_at.

(** [loadUserVote] of the effect run on mount, on the database [d] for
    the session [auth]. *)
Definition loadUserVote (props : Client.VotingButtonsProps) (auth : getUser_result)
    (created_at : string) (d : database) (st : Client.state) : Client.state :=
  if negb (Client.isAuthenticated props) then st
  else
    let vote :=
      Vote_of created_at
        <$> getUserVote auth (Client.targetId props) (Client.targetType props) d in
    Client.mk_state vote (Client.voteCount st) (Client.isLoading st)
      (Client.showLoginMessage st) (Client.onVoteChange st).

End Buttons.

(** ** What the further properties speak of *)

Module ExtraSpec.
Import Schema Store Route Spec.

#[global] Instance vote_state_eq_dec : EqDecision vote_state.
Proof. solve_decision. Defined.

(** The answer to a request that fails validation. *)
Definition refusal (msg : string) (d : database) : outcome :=
  (d, mk_response 400 (error_body msg), [console_log "Processing vote:"]).

(** [!x] holds of a text field. *)
Definition empty_field (x : option string) : Prop := x = None ∨ x = Some "".

(** The stance a direction stands for. *)
Definition state_of (vt : string) : vote_state :=
  if bool_decide (vt = "upvote") then Up else Down.

(** The stance the buttons have recorded. *)
Definition recorded (st : Client.state) : vote_state :=
  match Client.userVote st with
  | Some v => state_of (Client.vote_type v)
  | None => NoVote
  end.

(** The buttons show the stored score and the voter's stored stance. *)
Definition in_sync (st : Client.state) (d : database) (voter target : uuid)
    (ty : string) : Prop :=
  score d ty target = Some (Client.voteCount st)
  ∧ recorded st = effective_state d voter target ty.

(** The row is none of the voter's rows for the target. *)
Definition foreign_row (voter target : uuid) (ty : string) (r : vote) : Prop :=
  ¬ (user_id r = Some voter ∧ target_id r = target ∧ target_type r = ty).

(** The one row of the scores the trigger may change for an event. *)
Definition touched_kind (op : tg_op) : string :=
  match op with
  | TG_INSERT NEW => target_type NEW
  | TG_UPDATE OLD _ => target_type OLD
  | TG_DELETE OLD => target_type OLD
  end.

Definition touched_id (op : tg_op) : uuid :=
  match op with
  | TG_INSERT NEW => target_id NEW
  | TG_UPDATE _ NEW => target_id NEW
  | TG_DELETE OLD => target_id OLD
  end.

(** The rows of the event satisfy the CHECK constraints. *)
Definition checked_event (op : tg_op) : Prop :=
  match op with
  | TG_INSERT NEW => check_constraints NEW = true
  | TG_UPDATE OLD NEW => check_constraints OLD = true ∧ check_constraints NEW = true
  | TG_DELETE OLD => check_constraints OLD = true
  end.

End ExtraSpec.

(** ** Facts about the schema *)

Module SchemaFacts.
Import Schema Spec.

Lemma int4_Some z z' : int4 z = Some z' → z' = z ∧ int4_min ≤ z ≤ int4_max.
Proof.
  unfold int4. destruct (_ && _) eqn:E; [|done].
  intros [= <-]. apply andb_true_iff in E. lia.
Qed.

Lemma int4_in_range z : int4_min ≤ z ≤ int4_max → int4 z = Some z.
Proof.
  intros H. unfold int4.
  replace ((int4_min <=? z) && (z <=? int4_max)) with true; [done|].
  symmetry. apply andb_true_iff. lia.
Qed.

Lemma size_filter_insert (P : uuid * vote → Prop) `{!∀ kv, Decision (P kv)}
    (tbl : gmap uuid vote) i r :
  tbl !! i = None →
  size (filter P (<[i := r]> tbl))
  = (size (filter P tbl) + (if decide (P (i, r)) then 1 else 0))%nat.
Proof.
  intros Hi. rewrite map_filter_insert. case_decide.
  - rewrite map_size_insert_None; [lia|].
    apply map_lookup_filter_None. by left.
  - rewrite delete_id by done. lia.
Qed.

(** *** Counting the votes of a target *)

Lemma net_votes_insert tbl i r ty id :
  tbl !! i = None → vote_type r ∈ directions →
  net_votes (<[i := r]> tbl) ty id = net_votes tbl ty id + weight r ty id.
Proof.
  intros Hi Hd. unfold net_votes, count_votes.
  rewrite !size_filter_insert by done.
  unfold weight, vote_value, references, directions in *. simpl.
  apply elem_of_cons in Hd as [Hd|Hd%list_elem_of_singleton];
    repeat case_decide; repeat case_bool_decide;
    try lia; destruct_and?; congruence || naive_solver.
Qed.

Lemma net_votes_delete tbl i r ty id :
  tbl !! i = Some r → vote_type r ∈ directions →
  net_votes (delete i tbl) ty id = net_votes tbl ty id - weight r ty id.
Proof.
  intros Hi Hd.
  rewrite <-(insert_delete_id tbl i r) at 2 by done.
  rewrite net_votes_insert by (done || apply lookup_delete_eq). lia.
Qed.

Lemma net_votes_empty ty id : net_votes ∅ ty id = 0.
Proof. unfold net_votes, count_votes. by rewrite !map_filter_empty, map_size_empty. Qed.

(** *** What the trigger does to the scores *)

Lemma trigger_frame op d d' :
  update_vote_count op d = Some d' → votes d' = votes d ∧ profiles d' = profiles d.
Proof.
  unfold update_vote_count.
  destruct op; case_bool_decide; intros; simplify_option_eq; done.
Qed.

Lemma update_votes_where_id_Some tbl key f tbl' :
  update_votes_where_id tbl key f = Some tbl' →
  ∀ j, tbl' !! j = if decide (j = key) then tbl !! key ≫= f else tbl !! j.
Proof.
  unfold update_votes_where_id. intros H j.
  destruct (tbl !! key) as [v|] eqn:E.
  - destruct (f v) as [v'|] eqn:Ef; [|done]. injection H as <-.
    case_decide; subst; simplify_map_eq; done.
  - injection H as <-. case_decide; subst; by rewrite ?E.
Qed.

Lemma update_votes_where_id_fmap tbl key f (g : Z → Z) tbl' :
  (∀ v v', f v = Some v' → v' = g v) →
  update_votes_where_id tbl key f = Some tbl' →
  ∀ j, tbl' !! j = (λ s, if decide (j = key) then g s else s) <$> tbl !! j.
Proof.
  intros Hf H j. rewrite (update_votes_where_id_Some _ _ _ _ H).
  unfold update_votes_where_id in H.
  destruct (decide (j = key)) as [->|Hj].
  - destruct (tbl !! key) as [v|]; simpl; [|done].
    destruct (f v) as [v'|] eqn:Ef; [|done]. by rewrite (Hf _ _ Ef).
  - by destruct (tbl !! j).
Qed.

Lemma weight_eq r : weight r (target_type r) (target_id r) = vote_value (vote_type r).
Proof. unfold weight. by rewrite bool_decide_eq_true_2. Qed.

Lemma weight_ne r ty id : target_type r ≠ ty ∨ target_id r ≠ id → weight r ty id = 0.
Proof. intros H. unfold weight. rewrite bool_decide_eq_false_2; [done|]. tauto. Qed.

Lemma question_kind : "question" ∈ kinds.
Proof. unfold kinds. rewrite elem_of_cons. by left. Qed.
Lemma answer_kind : "answer" ∈ kinds.
Proof. unfold kinds. rewrite !elem_of_cons. right. by left. Qed.
Lemma upvote_direction : "upvote" ∈ directions.
Proof. unfold directions. rewrite elem_of_cons. by left. Qed.
Lemma downvote_direction : "downvote" ∈ directions.
Proof. unfold directions. rewrite !elem_of_cons. right. by left. Qed.

Lemma kinds_cases ty : ty ∈ kinds → ty = "question" ∨ ty = "answer".
Proof. unfold kinds. rewrite elem_of_cons, list_elem_of_singleton. done. Qed.

(** The rows of the table of kind [ty] after a trigger run that changed
    the row [key] of the table of kind [ty0] by [g]. *)
Lemma score_after (g : Z → Z) ty0 key ty id d d' t' f :
  ty0 ∈ kinds → ty ∈ kinds →
  (∀ v v', f v = Some v' → v' = g v) →
  update_votes_where_id (table ty0 d) key f = Some t' →
  d' = (if bool_decide (ty0 = "question") then set_questions t' d else set_answers t' d) →
  score d' ty id
  = (λ s, if bool_decide (ty0 = ty ∧ key = id) then g s else s) <$> score d ty id.
Proof.
  intros H0 Ht Hf E ->. unfold score.
  pose proof (update_votes_where_id_fmap _ _ _ g _ Hf E id) as Hl.
  destruct (kinds_cases _ H0) as [-> | ->], (kinds_cases _ Ht) as [-> | ->];
    change (table "question") with questions in *;
    change (table "answer") with answers in *; simpl.
  - rewrite Hl. destruct (questions d !! id); simpl; [|done].
    case_decide; case_bool_decide; subst; try done; exfalso; intuition congruence.
  - by destruct (answers d !! id).
  - by destruct (questions d !! id).
  - rewrite Hl. destruct (answers d !! id); simpl; [|done].
    case_decide; case_bool_decide; subst; try done; exfalso; intuition congruence.
Qed.

Lemma int4pl_Some a b v : int4pl a b = Some v → v = a + b.
Proof. intros H. by apply int4_Some in H as [-> _]. Qed.
Lemma int4mi_Some a b v : int4mi a b = Some v → v = a - b.
Proof. intros H. by apply int4_Some in H as [-> _]. Qed.

Lemma fmap_weight (o : option Z) (h k : Z → Z) :
  (∀ s, h s = k s) → h <$> o = k <$> o.
Proof. intros E. destruct o; simpl; by rewrite ?E. Qed.

Ltac trigger_table H E :=
  unfold update_vote_count in H; unfold table in E;
  case_bool_decide; rewrite E in H; by try injection H.

Lemma score_insert NEW d d' ty id :
  update_vote_count (TG_INSERT NEW) d = Some d' →
  target_type NEW ∈ kinds → ty ∈ kinds →
  score d' ty id = (λ s, s + weight NEW ty id) <$> score d ty id.
Proof.
  intros H Hn Ht.
  destruct (update_votes_where_id (table (target_type NEW) d) (target_id NEW)
              (λ votes, int4pl votes (vote_value (vote_type NEW)))) as [t'|] eqn:E;
    [|trigger_table H E].
  rewrite (score_after (λ s, s + vote_value (vote_type NEW)) _ _ ty id d d' t' _ Hn Ht
             (λ v v', int4pl_Some v _ v') E) by trigger_table H E.
  apply fmap_weight. intros s. unfold weight. destruct (bool_decide _); lia.
Qed.

Lemma score_delete OLD d d' ty id :
  update_vote_count (TG_DELETE OLD) d = Some d' →
  target_type OLD ∈ kinds → ty ∈ kinds →
  score d' ty id = (λ s, s - weight OLD ty id) <$> score d ty id.
Proof.
  intros H Hn Ht.
  destruct (update_votes_where_id (table (target_type OLD) d) (target_id OLD)
              (λ votes, int4mi votes (vote_value (vote_type OLD)))) as [t'|] eqn:E;
    [|trigger_table H E].
  rewrite (score_after (λ s, s - vote_value (vote_type OLD)) _ _ ty id d d' t' _ Hn Ht
             (λ v v', int4mi_Some v _ v') E) by trigger_table H E.
  apply fmap_weight. intros s. unfold weight. destruct (bool_decide _); lia.
Qed.

Lemma int4pl_mi_Some a b c v :
  int4pl a b ≫= (λ s, int4mi s c) = Some v → v = a + b - c.
Proof.
  destruct (int4pl a b) as [s|] eqn:E; [|done]. simpl.
  apply int4pl_Some in E as ->. apply int4mi_Some.
Qed.

(** An update that leaves the target of the row where it was. *)
Lemma score_update OLD NEW d d' ty id :
  update_vote_count (TG_UPDATE OLD NEW) d = Some d' →
  target_id NEW = target_id OLD → target_type NEW = target_type OLD →
  target_type OLD ∈ kinds → ty ∈ kinds →
  score d' ty id = (λ s, s + weight NEW ty id - weight OLD ty id) <$> score d ty id.
Proof.
  intros H Hi Hty Hn Ht.
  destruct (update_votes_where_id (table (target_type OLD) d) (target_id NEW)
              (λ votes, s ← int4pl votes (vote_value (vote_type NEW));
                        int4mi s (vote_value (vote_type OLD)))) as [t'|] eqn:E;
    [|trigger_table H E].
  rewrite (score_after (λ s, s + vote_value (vote_type NEW) - vote_value (vote_type OLD))
             _ _ ty id d d' t' _ Hn Ht
             (λ v v', int4pl_mi_Some v _ _ v') E) by trigger_table H E.
  apply fmap_weight. intros s. unfold weight. rewrite Hi, Hty.
  destruct (bool_decide _); lia.
Qed.

(** *** When a statement is accepted *)

Lemma check_constraints_true r :
  check_constraints r = true ↔ target_type r ∈ kinds ∧ vote_type r ∈ directions.
Proof.
  unfold check_constraints. rewrite andb_true_iff, !bool_decide_eq_true. done.
Qed.

Lemma fire_Ok op d d' : fire op d = Ok d' ↔ update_vote_count op d = Some d'.
Proof. unfold fire. destruct (update_vote_count op d); split; congruence. Qed.

Lemma insert_vote_Ok id NEW d d' :
  insert_vote id NEW d = Ok d' ↔
  check_constraints NEW = true ∧ votes d !! id = None
  ∧ unique_ok (votes d) NEW = true ∧ foreign_key_ok d NEW = true
  ∧ update_vote_count (TG_INSERT NEW) (set_votes (<[id := NEW]> (votes d)) d) = Some d'.
Proof.
  unfold insert_vote.
  destruct (check_constraints NEW); simpl; [|split; [done|by intros [? _]]].
  case_bool_decide as Hid; [|apply eq_None_not_Some in Hid].
  { split; [done|]. intros (_ & E & _). rewrite E in Hid. by destruct Hid. }
  destruct (unique_ok (votes d) NEW); simpl; [|split; [done|by intros (_ & _ & ? & _)]].
  destruct (foreign_key_ok d NEW); simpl;
    [|split; [done|by intros (_ & _ & _ & ? & _)]].
  rewrite fire_Ok. split; [done|]. by intros (_ & _ & _ & _ & ?).
Qed.

Lemma update_vote_Ok id new_id NEW d d' :
  update_vote id new_id NEW d = Ok d' ↔
  (votes d !! id = None ∧ d' = d)
  ∨ ∃ OLD, votes d !! id = Some OLD
      ∧ check_constraints NEW = true ∧ delete id (votes d) !! new_id = None
      ∧ unique_ok (delete id (votes d)) NEW = true ∧ foreign_key_ok d NEW = true
      ∧ update_vote_count (TG_UPDATE OLD NEW)
          (set_votes (<[new_id := NEW]> (delete id (votes d))) d) = Some d'.
Proof.
  unfold update_vote.
  destruct (votes d !! id) as [OLD|].
  2: { split; [intros [= <-]; by left|]. intros [[_ ->]|(? & ? & _)]; done. }
  destruct (check_constraints NEW); simpl.
  2: { split; [done|]. intros [[? _]|(? & _ & ? & _)]; done. }
  case_bool_decide as Hid; [|apply eq_None_not_Some in Hid].
  { split; [done|]. intros [[? _]|(? & _ & _ & E & _)]; [done|].
    rewrite E in Hid. by destruct Hid. }
  destruct (unique_ok _ NEW); simpl.
  2: { split; [done|]. intros [[? _]|(? & _ & _ & _ & ? & _)]; done. }
  destruct (foreign_key_ok d NEW); simpl.
  2: { split; [done|]. intros [[? _]|(? & _ & _ & _ & _ & ? & _)]; done. }
  rewrite fire_Ok. split.
  - intros H. right. by exists OLD.
  - intros [[? _]|(? & [= <-] & _ & _ & _ & _ & ?)]; done.
Qed.

Lemma delete_vote_Ok id d d' :
  delete_vote id d = Ok d' ↔
  (votes d !! id = None ∧ d' = d)
  ∨ ∃ OLD, votes d !! id = Some OLD
      ∧ update_vote_count (TG_DELETE OLD) (set_votes (delete id (votes d)) d) = Some d'.
Proof.
  unfold delete_vote.
  destruct (votes d !! id) as [OLD|].
  2: { split; [intros [= <-]; by left|]. intros [[_ ->]|(? & ? & _)]; done. }
  rewrite fire_Ok. split.
  - intros H. right. by exists OLD.
  - intros [[? _]|(? & [= <-] & ?)]; done.
Qed.

(** *** The constraints are kept by every statement *)

Lemma collides_sym r r' : collides r r' → collides r' r.
Proof.
  unfold collides. intros (Hs & Hu & Ht & Hty).
  rewrite <-Hu, <-Ht, <-Hty. done.
Qed.

Lemma unique_ok_true tbl r :
  unique_ok tbl r = true ↔ ∀ j r', tbl !! j = Some r' → ¬ collides r r'.
Proof. unfold unique_ok. by rewrite bool_decide_eq_true. Qed.

Lemma foreign_key_ok_profiles d d' r :
  profiles d' = profiles d → foreign_key_ok d' r = foreign_key_ok d r.
Proof. unfold foreign_key_ok. by intros ->. Qed.

Lemma rows_ok_delete d d' id :
  rows_ok d → votes d' = delete id (votes d) → profiles d' = profiles d →
  rows_ok d'.
Proof.
  intros (Hc & Hu & Hf) Hv Hp. unfold rows_ok. rewrite Hv.
  split_and!.
  - by apply map_Forall_delete.
  - intros i j r r' [_ Hi]%lookup_delete_Some [_ Hj]%lookup_delete_Some. eauto.
  - apply map_Forall_delete. intros i r Hi. rewrite (foreign_key_ok_profiles d) by done.
    by apply (Hf i).
Qed.

Lemma rows_ok_insert d d' id NEW :
  rows_ok d → check_constraints NEW = true →
  unique_ok (votes d) NEW = true → foreign_key_ok d NEW = true →
  votes d' = <[id := NEW]> (votes d) → profiles d' = profiles d →
  rows_ok d'.
Proof.
  intros (Hc & Hu & Hf) Hck Hun Hfk Hv Hp. unfold rows_ok. rewrite Hv.
  rewrite unique_ok_true in Hun.
  split_and!.
  - by apply map_Forall_insert_2.
  - intros i j r r' Hi Hj Hcol.
    apply lookup_insert_Some in Hi as [[<- <-]|[Hni Hi]];
      apply lookup_insert_Some in Hj as [[<- <-]|[Hnj Hj]]; try done.
    + by destruct (Hun _ _ Hj).
    + by destruct (Hun _ _ Hi (collides_sym _ _ Hcol)).
    + eauto.
  - apply map_Forall_insert_2.
    + by rewrite (foreign_key_ok_profiles d).
    + intros i r Hi. rewrite (foreign_key_ok_profiles d) by done. by apply (Hf i).
Qed.

Lemma apply_rows_ok m d d' :
  rows_ok d → apply m d = Ok d' → rows_ok d'.
Proof.
  intros Hd H. destruct m as [id NEW|id new_id NEW|id]; simpl in H.
  - apply insert_vote_Ok in H as (Hck & Hid & Hun & Hfk & Ht).
    apply trigger_frame in Ht as [Hv Hp].
    by apply (rows_ok_insert d d' id NEW).
  - apply update_vote_Ok in H as [[_ ->]|(OLD & Hid & Hck & Hnew & Hun & Hfk & Ht)]; [done|].
    apply trigger_frame in Ht as [Hv Hp]. simpl in *.
    apply (rows_ok_insert (set_votes (delete id (votes d)) d) d' new_id NEW); try done.
    by apply (rows_ok_delete d _ id).
  - apply delete_vote_Ok in H as [[_ ->]|(OLD & Hid & Ht)]; [done|].
    apply trigger_frame in Ht as [Hv Hp].
    by apply (rows_ok_delete d d' id).
Qed.

Lemma update_votes_where_id_integer tbl key f tbl' :
  (∀ v v', f v = Some v' → integer v') →
  update_votes_where_id tbl key f = Some tbl' →
  map_Forall (λ _ s, integer s) tbl → map_Forall (λ _ s, integer s) tbl'.
Proof.
  unfold update_votes_where_id. intros Hf H Ht.
  destruct (tbl !! key) as [v|]; [|by injection H as <-].
  destruct (f v) as [v'|] eqn:Ef; [|done]. injection H as <-.
  apply map_Forall_insert_2; eauto.
Qed.

Lemma int4_integer z v : int4 z = Some v → integer v.
Proof. intros H. by apply int4_Some in H as [-> ?]. Qed.

Lemma int4pl_mi_integer a b c v :
  int4pl a b ≫= (λ s, int4mi s c) = Some v → integer v.
Proof.
  destruct (int4pl a b) as [s|]; [|done]. simpl. apply int4_integer.
Qed.

Lemma trigger_integer op d d' :
  update_vote_count op d = Some d' → integer_scores d → integer_scores d'.
Proof.
  unfold update_vote_count, integer_scores. intros H [Hq Ha].
  destruct op; case_bool_decide;
    match type of H with
    | context [update_votes_where_id ?t ?k ?f] =>
        destruct (update_votes_where_id t k f) as [t'|] eqn:E; [|done]
    end;
    injection H as <-; simpl; (split; [try done|try done]);
    (eapply update_votes_where_id_integer; [|exact E|done]);
    intros v v' Hv;
    first [exact (int4_integer _ _ Hv)|exact (int4pl_mi_integer _ _ _ _ Hv)].
Qed.

Lemma apply_constraints m d d' :
  constraints_hold d → apply m d = Ok d' → constraints_hold d'.
Proof.
  intros [Hr Hi] H. split; [by apply (apply_rows_ok m d)|].
  destruct m as [id NEW|id new_id NEW|id]; simpl in H.
  - apply insert_vote_Ok in H as (_ & _ & _ & _ & Ht).
    by apply (trigger_integer _ _ _ Ht).
  - apply update_vote_Ok in H as [[_ ->]|(OLD & _ & _ & _ & _ & _ & Ht)]; [done|].
    by apply (trigger_integer _ _ _ Ht).
  - apply delete_vote_Ok in H as [[_ ->]|(OLD & _ & Ht)]; [done|].
    by apply (trigger_integer _ _ _ Ht).
Qed.

(** *** Score consistency, for statements that keep the target of a row *)

Lemma score_set_votes v d ty id : score (set_votes v d) ty id = score d ty id.
Proof. done. Qed.

Lemma row_checked d i r :
  constraints_hold d → votes d !! i = Some r →
  target_type r ∈ kinds ∧ vote_type r ∈ directions.
Proof. intros [(Hc & _) _] Hi. apply check_constraints_true, (Hc i r Hi). Qed.

Lemma apply_score_consistent m d d' :
  constraints_hold d → score_consistent d → keeps_target m d →
  apply m d = Ok d' → score_consistent d'.
Proof.
  intros Hd Hs Hk H ty tid s' Hty Hs'.
  destruct m as [id NEW|id new_id NEW|id]; simpl in H.
  - apply insert_vote_Ok in H as (Hck & Hid & _ & _ & Ht).
    apply check_constraints_true in Hck as [Hkn Hdn].
    rewrite (score_insert _ _ _ ty tid Ht Hkn Hty), score_set_votes in Hs'.
    apply trigger_frame in Ht as [-> _]. simpl.
    destruct (score d ty tid) as [s|] eqn:E; [|done]. injection Hs' as <-.
    rewrite net_votes_insert by done. by rewrite <-(Hs ty tid s Hty E).
  - apply update_vote_Ok in H as [[_ ->]|(OLD & Hid & Hck & Hnew & _ & _ & Ht)];
      [by apply Hs|].
    destruct (Hk OLD Hid) as [Hti Htt].
    destruct (row_checked d id OLD Hd Hid) as [Hko Hdo].
    apply check_constraints_true in Hck as [Hkn Hdn].
    rewrite (score_update _ _ _ _ ty tid Ht Hti Htt Hko Hty), score_set_votes in Hs'.
    apply trigger_frame in Ht as [-> _]. simpl.
    destruct (score d ty tid) as [s|] eqn:E; [|done]. injection Hs' as <-.
    rewrite net_votes_insert, (net_votes_delete _ _ OLD) by done.
    rewrite <-(Hs ty tid s Hty E); lia.
  - apply delete_vote_Ok in H as [[_ ->]|(OLD & Hid & Ht)]; [by apply Hs|].
    destruct (row_checked d id OLD Hd Hid) as [Hko Hdo].
    rewrite (score_delete _ _ _ ty tid Ht Hko Hty), score_set_votes in Hs'.
    apply trigger_frame in Ht as [-> _]. simpl.
    destruct (score d ty tid) as [s|] eqn:E; [|done]. injection Hs' as <-.
    rewrite (net_votes_delete _ _ OLD) by done.
    rewrite <-(Hs ty tid s Hty E); lia.
Qed.

Lemma initial_constraints d : initial d → constraints_hold d.
Proof.
  intros [Hv H0]. split.
  - unfold rows_ok. rewrite Hv.
    split_and!; [apply map_Forall_empty| |apply map_Forall_empty].
    intros i j r r' Hi. by rewrite lookup_empty in Hi.
  - split; intros i s Hi.
    + rewrite (H0 "question" i s); [done|apply question_kind|done].
    + rewrite (H0 "answer" i s); [done|apply answer_kind|done].
Qed.

Lemma initial_score_consistent d : initial d → score_consistent d.
Proof.
  intros [Hv H0] ty id s Hty Hs. rewrite Hv, net_votes_empty. eauto.
Qed.

Lemma exec_cases m d : (∃ d', apply m d = Ok d' ∧ exec m d = d') ∨ exec m d = d.
Proof. unfold exec. destruct (apply m d); eauto. Qed.

(** From a database with no vote and every score 0, statements that are
    accepted or refused, and that keep the target of the rows they update,
    lead only to databases where the constraints hold and every score is
    the number of upvotes minus the number of downvotes of its votable. *)
Lemma reachable_keeping_invariant d0 d :
  initial d0 → reachable_keeping d0 d → constraints_hold d ∧ score_consistent d.
Proof.
  intros H0 Hr. induction Hr as [|d m Hr [IHc IHs] Hk].
  - split; [by apply initial_constraints|by apply initial_score_consistent].
  - destruct (exec_cases m d) as [(d' & Ha & ->)| ->]; [|done].
    split; [by apply (apply_constraints m d)|by apply (apply_score_consistent m d)].
Qed.

End SchemaFacts.

(** ** Facts about the route *)

Module RouteFacts.
Import Schema Store Route Spec SchemaFacts.

(** *** The lookup of the existing vote *)

Lemma select_votes_held d voter target ty i r :
  constraints_hold d → holds_vote d voter target ty i r →
  select_votes d voter (uuid_text target) ty = Ok [(i, r)].
Proof.
  intros [(_ & Hu & _) _] (Hi & Hus & Hta & Hty). unfold select_votes. f_equal.
  rewrite <-map_to_list_singleton. f_equal.
  apply map_eq. intros j. apply option_eq. intros r'.
  rewrite map_lookup_filter_Some, lookup_singleton_Some. simpl. split.
  - intros (Hj & Hus' & Hta' & Hty').
    assert (i = j) as <-.
    { apply (Hu i j r r' Hi Hj). unfold collides.
      rewrite Hus, Hus', Hta, Hta', Hty, Hty'. eauto. }
    split; [done|congruence].
  - intros [<- <-]. done.
Qed.

Lemma select_votes_none d voter target ty :
  no_vote d voter target ty → select_votes d voter (uuid_text target) ty = Ok [].
Proof.
  intros Hn. unfold select_votes. f_equal. apply map_to_list_empty_iff.
  apply map_empty. intros j. apply map_lookup_filter_None.
  destruct (votes d !! j) as [r|] eqn:Hj; [right|by left].
  intros r' [= <-] H. by apply (Hn j r).
Qed.

Lemma held_or_none d voter target ty :
  (∃ i r, holds_vote d voter target ty i r) ∨ no_vote d voter target ty.
Proof.
  unfold no_vote, holds_vote.
  destruct (decide (map_Exists (λ _ r, user_id r = Some voter ∧ target_id r = target
                                       ∧ target_type r = ty) (votes d))) as [He|Hn].
  - left. destruct He as (i & r & Hi & H). by exists i, r.
  - right. intros i r [Hi H]. apply Hn. by exists i, r.
Qed.

(** *** The remote call after the vote always fails *)

Lemma finish_eq target ty d log :
  finish target ty d log = (d, mk_response 200 success_body, log ++ [rpc_line]).
Proof. done. Qed.

(** *** The trigger accepts a change that keeps the score an INTEGER *)

Lemma update_votes_where_id_accepts tbl key f :
  (∀ v, tbl !! key = Some v → is_Some (f v)) →
  is_Some (update_votes_where_id tbl key f).
Proof.
  intros H. unfold update_votes_where_id.
  destruct (tbl !! key) as [v|]; [|done].
  by destruct (H v eq_refl) as [v' ->].
Qed.

Lemma trigger_accepts_with ty key f d :
  (∀ v, score d ty key = Some v → is_Some (f v)) →
  is_Some (q ← update_votes_where_id (table ty d) key f;
           Some (if bool_decide (ty = "question") then set_questions q d
                 else set_answers q d)).
Proof.
  intros H. by destruct (update_votes_where_id_accepts (table ty d) key f H) as [q ->].
Qed.

Lemma insert_trigger_accepts NEW d :
  fits d (target_type NEW) (target_id NEW) (vote_value (vote_type NEW)) →
  is_Some (update_vote_count (TG_INSERT NEW) d).
Proof.
  intros Hf.
  destruct (trigger_accepts_with (target_type NEW) (target_id NEW)
              (λ votes, int4pl votes (vote_value (vote_type NEW))) d) as [d' Hd'].
  { intros v Hv. unfold int4pl. rewrite int4_in_range; [done|by apply Hf]. }
  exists d'. rewrite <-Hd'. unfold update_vote_count, table. by case_bool_decide.
Qed.

Lemma delete_trigger_accepts OLD d :
  fits d (target_type OLD) (target_id OLD) (- vote_value (vote_type OLD)) →
  is_Some (update_vote_count (TG_DELETE OLD) d).
Proof.
  intros Hf.
  destruct (trigger_accepts_with (target_type OLD) (target_id OLD)
              (λ votes, int4mi votes (vote_value (vote_type OLD))) d) as [d' Hd'].
  { intros v Hv. unfold int4mi. rewrite int4_in_range; [done|].
    specialize (Hf v Hv). lia. }
  exists d'. rewrite <-Hd'. unfold update_vote_count, table. by case_bool_decide.
Qed.

Lemma update_trigger_accepts OLD NEW d :
  target_id NEW = target_id OLD →
  fits d (target_type OLD) (target_id OLD) (vote_value (vote_type NEW)) →
  fits d (target_type OLD) (target_id OLD)
       (vote_value (vote_type NEW) - vote_value (vote_type OLD)) →
  is_Some (update_vote_count (TG_UPDATE OLD NEW) d).
Proof.
  intros Hi Hf1 Hf2.
  destruct (trigger_accepts_with (target_type OLD) (target_id NEW)
              (λ votes, s ← int4pl votes (vote_value (vote_type NEW));
                        int4mi s (vote_value (vote_type OLD))) d) as [d' Hd'].
  { intros v Hv. rewrite Hi in Hv. unfold int4pl, int4mi.
    rewrite int4_in_range by (by apply Hf1). simpl.
    rewrite int4_in_range; [done|]. specialize (Hf2 v Hv). lia. }
  exists d'. rewrite <-Hd'. unfold update_vote_count, table. by case_bool_decide.
Qed.

(** *** The three cases of the route *)

Lemma directions_cases vt : vt ∈ directions → vt = "upvote" ∨ vt = "downvote".
Proof. unfold directions. rewrite elem_of_cons, list_elem_of_singleton. done. Qed.

Lemma POST_process gen voter t ty vt d :
  ty ∈ kinds → vt ∈ directions →
  POST gen (signed_in voter) (Some (mk_body (Some t) (Some ty) (Some vt))) d
  = process gen voter t ty vt d [console_log "Processing vote:"].
Proof.
  intros Hty Hvt.
  destruct (kinds_cases _ Hty) as [-> | ->], (directions_cases _ Hvt) as [-> | ->];
    reflexivity.
Qed.

Lemma submitVote_process gen voter target ty vt d :
  ty ∈ kinds → vt ∈ directions →
  submitVote gen voter target ty vt d
  = process gen voter (uuid_text target) ty vt d [console_log "Processing vote:"].
Proof. apply POST_process. Qed.

(** A value that is no UUID fails the lookup: no statement is sent. *)
Lemma POST_not_uuid gen voter ty vt d :
  ty ∈ kinds → vt ∈ directions →
  POST gen (signed_in voter) (Some (mk_body (Some not_uuid) (Some ty) (Some vt))) d
  = (d, mk_response 500 (error_message_body invalid_text_representation),
     [console_log "Processing vote:";
      console_error "Vote check error:" (Some invalid_text_representation)]).
Proof. intros Hty Hvt. by rewrite POST_process. Qed.

Lemma submit_no_vote gen voter target ty vt d :
  ty ∈ kinds → vt ∈ directions → no_vote d voter target ty →
  (submitVote gen voter target ty vt d).1
  = applied (INSERT gen (mk_vote (Some voter) target ty vt)) d.
Proof.
  intros Hty Hvt Hn. rewrite submitVote_process by done.
  unfold process. rewrite select_votes_none by done. simpl.
  unfold applied, exec. simpl. by destruct (insert_vote _ _ d).
Qed.

Lemma submit_same gen voter target ty vt d i r :
  constraints_hold d → ty ∈ kinds → vt ∈ directions →
  holds_vote d voter target ty i r → vote_type r = vt →
  (submitVote gen voter target ty vt d).1 = applied (DELETE i) d.
Proof.
  intros Hd Hty Hvt Hh Hr. rewrite submitVote_process by done.
  unfold process. rewrite (select_votes_held _ _ _ _ i r) by done. simpl.
  rewrite bool_decide_eq_true_2 by done.
  unfold applied, exec. simpl. by destruct (delete_vote i d).
Qed.

Lemma submit_other gen voter target ty vt d i r :
  constraints_hold d → ty ∈ kinds → vt ∈ directions →
  holds_vote d voter target ty i r → vote_type r ≠ vt →
  (submitVote gen voter target ty vt d).1
  = applied (UPDATE i i (mk_vote (Some voter) target ty vt)) d.
Proof.
  intros Hd Hty Hvt Hh Hr. rewrite submitVote_process by done.
  unfold process. rewrite (select_votes_held _ _ _ _ i r) by done. simpl.
  rewrite bool_decide_eq_false_2 by done.
  destruct Hh as (_ & -> & -> & ->).
  unfold applied, exec. simpl. by destruct (update_vote i i _ d).
Qed.

Lemma insert_accepted gen voter target ty vt d :
  ty ∈ kinds → vt ∈ directions →
  no_vote d voter target ty → voter ∈ profiles d → votes d !! gen = None →
  fits d ty target (vote_value vt) →
  let NEW := mk_vote (Some voter) target ty vt in
  ∃ d', apply (INSERT gen NEW) d = Ok d'
        ∧ votes d' = <[gen := NEW]> (votes d) ∧ profiles d' = profiles d
        ∧ ∀ ty' id, ty' ∈ kinds →
            score d' ty' id = (λ s, s + weight NEW ty' id) <$> score d ty' id.
Proof.
  intros Hty Hvt Hn Hp Hg Hf NEW.
  destruct (insert_trigger_accepts NEW (set_votes (<[gen := NEW]> (votes d)) d))
    as [d' Hd']; [done|].
  exists d'. split_and!.
  - simpl. apply insert_vote_Ok. split_and!; try done.
    + by apply check_constraints_true.
    + apply unique_ok_true. intros j r' Hj (_ & Hu & Ht & Hy). simpl in *.
      by apply (Hn j r').
    + unfold foreign_key_ok. simpl. by apply bool_decide_eq_true.
  - by apply trigger_frame in Hd' as [-> _].
  - by apply trigger_frame in Hd' as [_ ->].
  - intros ty' id Hty'. by rewrite (score_insert _ _ _ ty' id Hd').
Qed.

Lemma delete_accepted voter target ty d i r :
  constraints_hold d → holds_vote d voter target ty i r →
  fits d ty target (- vote_value (vote_type r)) →
  ∃ d', apply (DELETE i) d = Ok d'
        ∧ votes d' = delete i (votes d) ∧ profiles d' = profiles d
        ∧ ∀ ty' id, ty' ∈ kinds →
            score d' ty' id = (λ s, s - weight r ty' id) <$> score d ty' id.
Proof.
  intros Hd (Hi & Hu & <- & <-) Hf.
  destruct (row_checked d i r Hd Hi) as [Hk _].
  destruct (delete_trigger_accepts r (set_votes (delete i (votes d)) d))
    as [d' Hd']; [done|].
  exists d'. split_and!.
  - simpl. apply delete_vote_Ok. right. by exists r.
  - by apply trigger_frame in Hd' as [-> _].
  - by apply trigger_frame in Hd' as [_ ->].
  - intros ty' id Hty'. by rewrite (score_delete _ _ _ ty' id Hd').
Qed.

Lemma update_accepted voter target ty vt d i r :
  constraints_hold d → vt ∈ directions → holds_vote d voter target ty i r →
  fits d ty target (vote_value vt) →
  fits d ty target (vote_value vt - vote_value (vote_type r)) →
  let NEW := mk_vote (Some voter) target ty vt in
  ∃ d', apply (UPDATE i i NEW) d = Ok d'
        ∧ votes d' = <[i := NEW]> (votes d) ∧ profiles d' = profiles d
        ∧ ∀ ty' id, ty' ∈ kinds →
            score d' ty' id
            = (λ s, s + weight NEW ty' id - weight r ty' id) <$> score d ty' id.
Proof.
  intros Hd Hvt (Hi & Hu & <- & <-) Hf1 Hf2 NEW.
  destruct (row_checked d i r Hd Hi) as [Hk _].
  destruct (update_trigger_accepts r NEW
              (set_votes (<[i := NEW]> (delete i (votes d))) d))
    as [d' Hd']; [done..|].
  exists d'. split_and!.
  - simpl. apply update_vote_Ok. right. exists r. split_and!; try done.
    + by apply check_constraints_true.
    + apply lookup_delete_eq.
    + apply unique_ok_true. intros j r' [Hji Hj]%lookup_delete_Some (_ & Hu' & Ht & Hy).
      simpl in *. destruct Hd as [(_ & Hun & _) _].
      apply Hji, (Hun i j r r' Hi Hj). unfold collides. rewrite Hu. eauto.
    + destruct Hd as [(_ & _ & Hfk) _]. specialize (Hfk i r Hi).
      unfold foreign_key_ok in *. simpl. by rewrite Hu in Hfk.
  - apply trigger_frame in Hd' as [-> _]. simpl. apply insert_delete_eq.
  - by apply trigger_frame in Hd' as [_ ->].
  - intros ty' id Hty'. by rewrite (score_update _ _ _ _ ty' id Hd').
Qed.

End RouteFacts.

(** ** The claims of the specification *)

Module Properties.
Import Schema Store Route Spec SchemaFacts RouteFacts.

Lemma vote_value_delta vt : vt ∈ directions → vote_value vt = delta vt.
Proof. intros [-> | ->]%directions_cases; done. Qed.

Lemma two_questions_initial : initial two_questions.
Proof.
  split; [done|]. intros ty id s [-> | ->]%kinds_cases; unfold score.
  - change (table "question" two_questions) with ({[1%N := 0; 2%N := 0]} : gmap uuid Z).
    intros [[_ <-]|[_ [_ <-]%lookup_singleton_Some]]%lookup_insert_Some; done.
  - change (table "answer" two_questions) with (∅ : gmap uuid Z).
    by rewrite lookup_empty.
Qed.

(** C1 (score consistency invariant).  The invariant does not hold for
    every sequence of statements on the votes table: from the initial
    database [two_questions], an INSERT of an upvote on question 1 followed
    by an UPDATE that moves the row to question 2 runs the UPDATE branch of
    [update_vote_count], which adds +1 - 1 to the row [NEW.target_id] and
    leaves [OLD.target_id] alone.  Question 1 then has score 1 and no vote
    row, question 2 has score 0 and one upvote.  (For statements that keep
    the target of the rows they update the invariant holds,
    [SchemaFacts.reachable_keeping_invariant].) *)
Theorem retargeting_update_breaks_score :
  initial two_questions ∧ reachable two_questions retargeted
  ∧ score retargeted "question" 1 = Some 1
  ∧ count_votes (votes retargeted) "question" 1 "upvote" = 0
  ∧ count_votes (votes retargeted) "question" 1 "downvote" = 0
  ∧ score retargeted "question" 2 = Some 0
  ∧ count_votes (votes retargeted) "question" 2 "upvote" = 1
  ∧ ¬ score_consistent retargeted.
Proof.
  split_and!.
  - apply two_questions_initial.
  - do 2 apply reachable_step. apply reachable_refl.
  - by vm_compute.
  - by vm_compute.
  - by vm_compute.
  - by vm_compute.
  - by vm_compute.
  - intros H. specialize (H "question" 1%N 1).
    assert (1 = net_votes (votes retargeted) "question" 1) as E.
    { apply H; [apply question_kind|by vm_compute]. }
    vm_compute in E. done.
Qed.

Lemma trigger_returns op d s :
  ledger_event op → score d (event_kind op) (event_target op) = Some s →
  sums_fit op s → is_Some (update_vote_count op d).
Proof.
  intros Hop Hs Hf. destruct op as [NEW|OLD NEW|OLD]; simpl in *.
  - apply check_constraints_true in Hop as [_ Hd].
    apply insert_trigger_accepts. intros s0. rewrite Hs. intros [= <-].
    rewrite (vote_value_delta _ Hd). apply Hf.
  - destruct Hop as ([_ Hd]%check_constraints_true & [_ Hd']%check_constraints_true
                     & Hi & _).
    destruct Hf as [Hf1 Hf2].
    unfold integer in *.
    apply update_trigger_accepts; [done| |]; intros s0; rewrite Hs; intros [= <-];
      rewrite ?(vote_value_delta _ Hd), ?(vote_value_delta _ Hd'); lia.
  - apply check_constraints_true in Hop as [_ Hd].
    apply delete_trigger_accepts. intros s0. rewrite Hs. intros [= <-].
    rewrite (vote_value_delta _ Hd). unfold integer in Hf. lia.
Qed.

Lemma trigger_sums_fit op d d' s :
  ledger_event op → update_vote_count op d = Some d' →
  score d (event_kind op) (event_target op) = Some s → sums_fit op s.
Proof.
  intros Hop H Hs. unfold score in Hs.
  destruct op as [NEW|OLD NEW|OLD]; simpl in *.
  - apply check_constraints_true in Hop as [_ Hd]. rewrite <-(vote_value_delta _ Hd).
    unfold update_vote_count, table in *. case_bool_decide;
      unfold update_votes_where_id in H; rewrite Hs in H; simpl in H;
      (destruct (int4pl s _) as [v|] eqn:E; [|done]); by apply int4_Some in E as [_ ?].
  - destruct Hop as ([_ Hd]%check_constraints_true & [_ Hd']%check_constraints_true
                     & Hi & _).
    rewrite <-(vote_value_delta _ Hd), <-(vote_value_delta _ Hd'). rewrite <-Hi in Hs.
    unfold update_vote_count, table in *. case_bool_decide;
      unfold update_votes_where_id in H; rewrite Hs in H; simpl in H;
      (destruct (int4pl s _) as [v|] eqn:E; [|done]); simpl in H;
      (destruct (int4mi v _) as [w|] eqn:E'; [|done]);
      apply int4_Some in E as [-> ?]; apply int4_Some in E' as [_ ?]; by split.
  - apply check_constraints_true in Hop as [_ Hd]. rewrite <-(vote_value_delta _ Hd).
    unfold update_vote_count, table in *. case_bool_decide;
      unfold update_votes_where_id in H; rewrite Hs in H; simpl in H;
      (destruct (int4mi s _) as [v|] eqn:E; [|done]); by apply int4_Some in E as [_ ?].
Qed.

Lemma trigger_moves_score op d d' s :
  ledger_event op → update_vote_count op d = Some d' →
  score d (event_kind op) (event_target op) = Some s →
  score d' (event_kind op) (event_target op) = Some (s + expected_change op).
Proof.
  intros Hop Ht Hs. destruct op as [NEW|OLD NEW|OLD]; simpl in *.
  - apply check_constraints_true in Hop as [Hk Hd].
    rewrite (score_insert _ _ _ _ _ Ht Hk Hk), Hs. simpl.
    by rewrite weight_eq, (vote_value_delta _ Hd).
  - destruct Hop as ([Hk Hd]%check_constraints_true & [_ Hd']%check_constraints_true
                     & Hi & Hty).
    rewrite (score_update _ _ _ _ _ _ Ht Hi Hty Hk Hk), Hs. simpl.
    rewrite weight_eq, <-Hi, <-Hty, weight_eq.
    rewrite (vote_value_delta _ Hd), (vote_value_delta _ Hd'). f_equal. lia.
  - apply check_constraints_true in Hop as [Hk Hd].
    rewrite (score_delete _ _ _ _ _ Ht Hk Hk), Hs. simpl.
    rewrite weight_eq, (vote_value_delta _ Hd). f_equal; lia.
Qed.

(** C7 (counter arithmetic).  For an insert, an update that leaves the
    vote on its target, or a delete, of rows that satisfy the CHECK
    constraints, on a target whose score is [s]: when the sums the branch
    computes are INTEGER values the trigger function returns, and the
    score of the vote's target has changed by [delta] of the new
    direction, by [delta new - delta old], or by [- delta old], with
    [delta "upvote" = 1] and [delta "downvote" = -1]; and whenever the
    function returns, the sums were INTEGER values and the score has
    changed by that amount. *)
Theorem counter_arithmetic op d s :
  ledger_event op →
  score d (event_kind op) (event_target op) = Some s →
  (sums_fit op s →
     ∃ d', update_vote_count op d = Some d'
           ∧ score d' (event_kind op) (event_target op)
             = Some (s + expected_change op))
  ∧ (∀ d', update_vote_count op d = Some d' →
       sums_fit op s
       ∧ score d' (event_kind op) (event_target op) = Some (s + expected_change op)).
Proof.
  intros Hop Hs. split.
  - intros Hf. destruct (trigger_returns op d s Hop Hs Hf) as [d' Hd'].
    exists d'. split; [done|]. by apply (trigger_moves_score op d d' s).
  - intros d' Hd'. split.
    + by apply (trigger_sums_fit op d d' s).
    + by apply (trigger_moves_score op d d' s).
Qed.

Lemma applied_Ok m d d' :
  apply m d = Ok d' → applied m d = (d', mk_response 200 success_body).
Proof. intros H. unfold applied, exec. by rewrite H. Qed.

Lemma database_eq d d' :
  profiles d' = profiles d → votes d' = votes d →
  (∀ ty id, ty ∈ kinds → score d' ty id = score d ty id) → d' = d.
Proof.
  destruct d as [p q a v], d' as [p' q' a' v']. simpl. intros -> -> H.
  f_equal; apply map_eq; intros id.
  - apply (H "question" id), question_kind.
  - apply (H "answer" id), answer_kind.
Qed.

Lemma score_integer d ty id s :
  constraints_hold d → ty ∈ kinds → score d ty id = Some s → integer s.
Proof.
  intros [_ [Hq Ha]] [-> | ->]%kinds_cases Hs.
  - by apply (Hq id).
  - by apply (Ha id).
Qed.

Lemma not_uuid_outcome gen voter ty vt d :
  ty ∈ kinds → vt ∈ directions →
  (POST gen (signed_in voter) (Some (mk_body (Some not_uuid) (Some ty) (Some vt))) d).1
  = (d, mk_response 500 (error_message_body invalid_text_representation)).
Proof. intros Hty Hvt. by rewrite POST_not_uuid. Qed.


Lemma applied_Error m d e :
  apply m d = Error e → applied m d = (d, mk_response 500 (error_message_body e)).
Proof. intros H. unfold applied, exec. by rewrite H. Qed.

Lemma issues_total gen voter target ty vt d :
  ∃ m, issues gen voter target ty vt d m.
Proof.
  destruct (held_or_none d voter target ty) as [(i & r & Hh)|Hn].
  - destruct (decide (vote_type r = vt)) as [E|E].
    + exists (DELETE i). right. left. by exists i, r.
    + eexists (UPDATE i i _). right. right. by exists i, r.
  - eexists (INSERT gen _). by left.
Qed.

Lemma issues_applied gen voter target ty vt d m :
  constraints_hold d → ty ∈ kinds → vt ∈ directions →
  issues gen voter target ty vt d m →
  (submitVote gen voter target ty vt d).1 = applied m d.
Proof.
  intros Hd Hty Hvt [[Hn ->]|[(i & r & Hh & Hr & ->)|(i & r & Hh & Hr & ->)]].
  - by apply submit_no_vote.
  - by apply (submit_same _ _ _ _ _ _ i r).
  - by apply (submit_other _ _ _ _ _ _ i r).
Qed.



Lemma weight_target voter target ty vt :
  weight (mk_vote (Some voter) target ty vt) ty target = vote_value vt.
Proof. apply (weight_eq (mk_vote (Some voter) target ty vt)). Qed.

(** C8 (toggle round trip).  From a database where the voter has no
    vote on the target, the first of two calls with the same voter, target
    and direction inserts the vote and moves the target's score by
    [delta] of the direction (+1 up, -1 down); the second deletes the vote
    and leaves the whole database, scores and votes, as it was before the
    first call. *)
Theorem toggle_round_trip gen gen' voter target ty vt d :
  constraints_hold d → ty ∈ kinds → vt ∈ directions →
  no_vote d voter target ty → voter ∈ profiles d → votes d !! gen = None →
  fits d ty target (vote_value vt) →
  let first := submitVote gen voter target ty vt d in
  let second := submitVote gen' voter target ty vt first.1.1 in
  status first.1.2 = 200
  ∧ votes first.1.1 = <[gen := mk_vote (Some voter) target ty vt]> (votes d)
  ∧ (∀ s, score d ty target = Some s →
          score first.1.1 ty target = Some (s + delta vt))
  ∧ status second.1.2 = 200
  ∧ second.1.1 = d.
Proof.
  intros Hd Hty Hvt Hn Hp Hg Hf first second.
  destruct (insert_accepted gen voter target ty vt d) as (d1 & Ha1 & Hv1 & Hp1 & Hs1);
    try done.
  assert (first.1 = (d1, mk_response 200 success_body)) as E1.
  { subst first. rewrite submit_no_vote by done. by apply applied_Ok. }
  assert (constraints_hold d1) as Hd1 by exact (apply_constraints _ _ _ Hd Ha1).
  assert (holds_vote d1 voter target ty gen (mk_vote (Some voter) target ty vt)) as Hh.
  { split; [|done]. rewrite Hv1. apply lookup_insert_eq. }
  destruct (delete_accepted voter target ty d1 gen _ Hd1 Hh)
    as (d2 & Ha2 & Hv2 & Hp2 & Hs2).
  { intros s1. rewrite Hs1 by done.
    destruct (score d ty target) as [s|] eqn:Es; [|done]. intros [= <-].
    pose proof (score_integer d ty target s Hd Hty Es) as Hi.
    rewrite weight_target. unfold integer in Hi. simpl. lia. }
  assert (second.1 = (d2, mk_response 200 success_body)) as E2.
  { subst second. destruct first as [[d1' r1] l1]. simpl in E1. injection E1 as -> ->.
    simpl. rewrite (submit_same _ _ _ _ _ _ gen _ Hd1 Hty Hvt Hh) by done.
    by apply applied_Ok. }
  destruct first as [[d1' r1] l1], second as [[d2' r2] l2]. simpl in *.
  injection E1 as -> ->. injection E2 as -> ->.
  split_and!; try done.
  - intros s Es. rewrite Hs1, Es by done. simpl.
    by rewrite weight_target, vote_value_delta.
  - apply database_eq.
    + by rewrite Hp2, Hp1.
    + rewrite Hv2, Hv1. by apply delete_insert_id.
    + intros ty' id Hty'. rewrite Hs2, Hs1 by done.
      destruct (score d ty' id); simpl; f_equal; lia.
Qed.

(** C9 (direction switch).  When the voter holds an upvote on the target,
    a call with direction down moves the target's score by exactly -2 and
    turns the row into a downvote; when the voter holds a downvote, a call
    with direction up moves the score by exactly +2. *)
Theorem direction_switch gen voter target ty d i r s :
  constraints_hold d → ty ∈ kinds → holds_vote d voter target ty i r →
  score d ty target = Some s →
  (vote_type r = "upvote" → integer (s - 2) →
     let out := submitVote gen voter target ty "downvote" d in
     status out.1.2 = 200 ∧ score out.1.1 ty target = Some (s - 2)
     ∧ votes out.1.1 = <[i := mk_vote (Some voter) target ty "downvote"]> (votes d))
  ∧ (vote_type r = "downvote" → integer (s + 2) →
     let out := submitVote gen voter target ty "upvote" d in
     status out.1.2 = 200 ∧ score out.1.1 ty target = Some (s + 2)
     ∧ votes out.1.1 = <[i := mk_vote (Some voter) target ty "upvote"]> (votes d)).
Proof.
  intros Hd Hty Hh Hs.
  pose proof (score_integer d ty target s Hd Hty Hs) as Hi. unfold integer in Hi.
  assert (weight r ty target = vote_value (vote_type r)) as Hw.
  { destruct Hh as (_ & _ & <- & <-). apply weight_eq. }
  split; intros Hr Hi2 out; unfold integer in Hi2.
  - destruct (update_accepted voter target ty "downvote" d i r)
      as (d' & Ha & Hv & _ & Hs'); try done.
    { apply downvote_direction. }
    { intros s0. rewrite Hs. intros [= <-]. change (vote_value "downvote") with (-1). lia. }
    { intros s0. rewrite Hs, Hr. intros [= <-].
      change (vote_value "downvote" - vote_value "upvote") with (-2). lia. }
    subst out. destruct (submitVote _ _ _ _ _ d) as [[d1 r1] l1] eqn:E.
    assert ((d1, r1) = (d', mk_response 200 success_body)) as [= -> ->].
    { change (d1, r1) with ((d1, r1, l1).1). rewrite <-E.
      rewrite (submit_other _ _ _ _ _ _ i r)
        by (done || apply upvote_direction || apply downvote_direction || by rewrite Hr).
      by apply applied_Ok. }
    simpl. split_and!; try done.
    rewrite Hs', Hs by done. simpl. rewrite weight_target, Hw, Hr.
    change (vote_value "downvote") with (-1). change (vote_value "upvote") with 1.
    f_equal; lia.
  - destruct (update_accepted voter target ty "upvote" d i r)
      as (d' & Ha & Hv & _ & Hs'); try done.
    { apply upvote_direction. }
    { intros s0. rewrite Hs. intros [= <-]. change (vote_value "upvote") with 1. lia. }
    { intros s0. rewrite Hs, Hr. intros [= <-].
      change (vote_value "upvote" - vote_value "downvote") with 2. lia. }
    subst out. destruct (submitVote _ _ _ _ _ d) as [[d1 r1] l1] eqn:E.
    assert ((d1, r1) = (d', mk_response 200 success_body)) as [= -> ->].
    { change (d1, r1) with ((d1, r1, l1).1). rewrite <-E.
      rewrite (submit_other _ _ _ _ _ _ i r)
        by (done || apply upvote_direction || apply downvote_direction || by rewrite Hr).
      by apply applied_Ok. }
    simpl. split_and!; try done.
    rewrite Hs', Hs by done. simpl. rewrite weight_target, Hw, Hr.
    change (vote_value "downvote") with (-1). change (vote_value "upvote") with 1.
    f_equal; lia.
Qed.





Ltac log_cases Hin Hlog :=
  unfold rpc_line in *; set_unfold in Hin;
  intuition (first [done | simplify_eq; done | exfalso; eauto]).

Ltac outcome_leaf Hlog :=
  rewrite ?finish_eq; simpl; split_and!;
  [ done
  | try done; intros _; (split; [done|]); set_unfold; auto
  | let Hin := fresh "Hin" in
    intros label e Hin Hl; try done; log_cases Hin Hlog ].

Lemma change_votes_outcome gen voter target ty vt existing d log :
  (∀ label e, console_error label e ∈ log → False) →
  let out := change_votes gen voter target ty vt existing d log in
  (status out.1.2 ≠ 200 → out.1.1 = d)
  ∧ (status out.1.2 = 200 → out.1.2 = mk_response 200 success_body ∧ rpc_line ∈ out.2)
  ∧ (∀ label e, console_error label e ∈ out.2 →
       label ≠ "Vote count update error:" → status out.1.2 = 500).
Proof.
  intros Hlog out. subst out. unfold change_votes.
  destruct existing as [[i r]|].
  - case_bool_decide.
    + destruct (delete_vote i d); outcome_leaf Hlog.
    + destruct (update_vote i i _ d); outcome_leaf Hlog.
  - destruct (insert_votes gen voter target ty vt d); outcome_leaf Hlog.
Qed.

Lemma POST_outcome gen auth request d :
  let out := POST gen auth request d in
  (status out.1.2 ≠ 200 → out.1.1 = d)
  ∧ (status out.1.2 = 200 → out.1.2 = mk_response 200 success_body ∧ rpc_line ∈ out.2)
  ∧ (∀ label e, console_error label e ∈ out.2 →
       label ≠ "Vote count update error:" → status out.1.2 = 500).
Proof.
  intros out. subst out. unfold POST.
  assert (∀ label e, console_error label e ∈ [console_log "Processing vote:"] → False)
    as Hlog.
  { intros label e Hin. set_unfold in Hin. by destruct Hin as [Hin|[]]. }
  destruct request as [[[t|] [ty|] [vt|]]|]; try outcome_leaf Hlog.
  cbn [body_target_id body_target_type body_vote_type].
  destruct (bool_decide (ty = "") || bool_decide (vt = "")); [outcome_leaf Hlog|].
  destruct (negb (bool_decide (ty ∈ ["question"; "answer"]))); [outcome_leaf Hlog|].
  destruct (negb (bool_decide (vt ∈ ["upvote"; "downvote"]))); [outcome_leaf Hlog|].
  destruct auth as [[u|] [|]]; cbn [authError user]; try outcome_leaf Hlog.
  unfold process.
  destruct (single (select_votes d u t ty)) as [existing err].
  destruct (check_failed err); [outcome_leaf Hlog|].
  by apply change_votes_outcome.
Qed.

(** C3, as stated, fails: the first upvote on question 1 logs the error of
    the remote call [update_vote_count] and still answers 200 with
    [success: true]. *)
Lemma remote_call_error_is_swallowed :
  let out := submitVote 10 7 1 "question" "upvote" two_questions in
  console_error "Vote count update error:" (Some PGRST202) ∈ out.2
  ∧ out.1.2 = mk_response 200 success_body.
Proof. split; [|done]. vm_compute. set_unfold. auto. Qed.

Lemma trigger_raises_rejected m d :
  trigger_raises m d →
  ∃ e, apply m d = Error e ∧ applied m d = (d, mk_response 500 (error_message_body e)).
Proof.
  intros H.
  assert (∃ e, apply m d = Error e) as [e He].
  { destruct (apply m d) as [d'|e] eqn:E; [|by exists e]. exfalso.
    destruct m as [id NEW|id new_id NEW|id]; unfold trigger_raises, apply in *.
    - apply insert_vote_Ok in E as (_ & _ & _ & _ & E). by rewrite H in E.
    - destruct H as (OLD & Hi & H).
      apply update_vote_Ok in E as [[? _]|(OLD' & Hi' & _ & _ & _ & _ & E)];
        [congruence|].
      rewrite Hi in Hi'. injection Hi' as <-. by rewrite H in E.
    - destruct H as (OLD & Hi & H).
      apply delete_vote_Ok in E as [[? _]|(OLD' & Hi' & E)]; [congruence|].
      rewrite Hi in Hi'. injection Hi' as <-. by rewrite H in E. }
  exists e. split; [done|]. unfold applied, exec. by rewrite He.
Qed.

(** C3, amended.  A call that does not answer 200 leaves the database as
    it was.  A lookup of the existing vote that fails, as it does for a
    [target_id] that is no UUID, is answered 500 with the store's error.
    For a signed-in call with a valid kind, direction and UUID, the route
    issues the statement of the case analysis, and if the store refuses
    that statement, in particular because the score update of the trigger
    raises, the call is answered 500 with the store's error and votes and
    scores are unchanged.  Every logged error other than that of the
    final remote call comes with the answer 500; the error of the final
    remote call is logged by every call that answers 200 and is not
    returned. *)
Theorem errors_of_the_vote_path gen auth request d :
  let out := POST gen auth request d in
  (status out.1.2 ≠ 200 → out.1.1 = d)
  ∧ (∀ voter ty vt, auth = signed_in voter → ty ∈ kinds → vt ∈ directions →
       request = Some (mk_body (Some not_uuid) (Some ty) (Some vt)) →
       out.1 = (d, mk_response 500 (error_message_body invalid_text_representation)))
  ∧ (∀ voter target ty vt, auth = signed_in voter → request = submit target ty vt →
       constraints_hold d → ty ∈ kinds → vt ∈ directions →
       (∃ m, issues gen voter target ty vt d m)
       ∧ ∀ m, issues gen voter target ty vt d m →
           (∀ e, apply m d = Error e →
                 out.1 = (d, mk_response 500 (error_message_body e)))
           ∧ (trigger_raises m d → ∃ e, apply m d = Error e))
  ∧ (∀ label e, console_error label e ∈ out.2 →
       label ≠ "Vote count update error:" → status out.1.2 = 500)
  ∧ (status out.1.2 = 200 → rpc_line ∈ out.2).
Proof.
  intros out. destruct (POST_outcome gen auth request d) as (H1 & H2 & H3).
  split_and!; [done| | |done|by intros [_ ?]%H2].
  - intros voter ty vt -> Hty Hvt ->. by apply not_uuid_outcome.
  - intros voter target ty vt -> -> Hd Hty Hvt. split; [apply issues_total|].
    intros m Hm. split.
    + intros e He. subst out. fold (submitVote gen voter target ty vt d).
      rewrite (issues_applied _ _ _ _ _ _ m) by done. by apply applied_Error.
    + intros Hr. destruct (trigger_raises_rejected m d Hr) as (e & He & _). by exists e.
Qed.

(** C5, as stated, fails: no reading of the response yields the voter's
    new vote state and the target's new score, since two successful calls
    with different outcomes are answered alike. *)
Lemma success_response_carries_no_state :
  ¬ ∃ decode : response → vote_state * option Z,
      ∀ gen voter target ty vt d,
        let out := submitVote gen voter target ty vt d in
        status out.1.2 = 200 →
        decode out.1.2 = (effective_state out.1.1 voter target ty, score out.1.1 ty target).
Proof.
  intros [decode H].
  pose proof (H 10%N 7%N 1%N "question" "upvote" two_questions) as H1.
  pose proof (H 11%N 7%N 1%N "question" "upvote"
                (submitVote 10 7 1 "question" "upvote" two_questions).1.1) as H2.
  vm_compute in H1, H2.
  specialize (H1 eq_refl). specialize (H2 eq_refl). congruence.
Qed.

(** C5, amended.  Every successful call is answered with status 200 and
    the body [success: true], which carries neither the vote state nor
    the score. *)
Theorem success_response_shape gen auth request d :
  let out := POST gen auth request d in
  status out.1.2 = 200 → out.1.2 = mk_response 200 success_body.
Proof.
  intros out H. by destruct (POST_outcome gen auth request d) as (_ & [? _]%(λ f, f H) & _).
Qed.

(** C6, as stated, fails: a caller without identity who asks for a vote
    on a kind that is neither question nor answer is answered 400, since
    the fields are checked before the identity. *)
Lemma anonymous_invalid_request_is_400 :
  unauthenticated anonymous
  ∧ (POST 10 anonymous vote_on_comment no_questions).1.2
    = mk_response 400 (error_body "Invalid target type").
Proof. split; [by right|done]. Qed.

(** C6, amended.  A call whose caller has no verifiable identity leaves
    votes and scores unchanged; it is answered 401 when the body has its
    three fields with a valid kind and direction, and 400 or 500
    otherwise. *)
Theorem unauthenticated_call_changes_nothing gen auth request d :
  unauthenticated auth →
  let out := POST gen auth request d in
  out.1.1 = d
  ∧ (well_formed request →
       out.1.2 = mk_response 401 (error_body "Authentication required"))
  ∧ (¬ well_formed request → status out.1.2 = 400 ∨ status out.1.2 = 500).
Proof.
  intros Hu out. subst out. unfold POST.
  destruct request as [[[t|] [ty|] [vt|]]|]; simpl;
    try (split_and!; [done|by intros (? & ? & ? & [=] & _)|by auto]).
  destruct (bool_decide (ty = "") || bool_decide (vt = "")) eqn:E1; simpl.
  { split_and!; [done| |by auto]. intros (? & ? & ? & [= <- <- <-] & Hk & Hd). exfalso.
    apply orb_true_iff in E1 as [->%bool_decide_eq_true| ->%bool_decide_eq_true].
    - by destruct (kinds_cases _ Hk).
    - by destruct (directions_cases _ Hd). }
  destruct (bool_decide (ty ∈ ["question"; "answer"])) eqn:Hk; simpl.
  2: { apply bool_decide_eq_false in Hk. split_and!; [done| |by auto].
       intros (? & ? & ? & [= <- <- <-] & Hk' & _). by destruct Hk. }
  destruct (bool_decide (vt ∈ ["upvote"; "downvote"])) eqn:Hd; simpl.
  2: { apply bool_decide_eq_false in Hd. split_and!; [done| |by auto].
       intros (? & ? & ? & [= <- <- <-] & _ & Hd'). by destruct Hd. }
  apply bool_decide_eq_true in Hk, Hd.
  assert (well_formed (Some (mk_body (Some t) (Some ty) (Some vt)))) as Hw
    by by exists t, ty, vt.
  destruct auth as [[u|] [|]]; simpl; try done.
  by destruct Hu.
Qed.

Lemma commit_same_direction props voteType now st v :
  Client.userVote st = Some v → Client.vote_type v = voteType →
  Client.voteCount (Client.commit props voteType now st) = Client.voteCount st
  ∧ Client.userVote (Client.commit props voteType now st)
    = Some (Client.mk_Vote (Client.id v) None (Client.targetId props)
              (Client.targetType props) voteType now)
  ∧ Client.onVoteChange (Client.commit props voteType now st)
    = Client.onVoteChange st ++ [Client.voteCount st].
Proof.
  intros Hv Hd. unfold Client.commit. rewrite Hv, Hd. simpl.
  assert (Client.voteCount st
          - (if bool_decide (voteType = "upvote") then 1 else -1)
          + (if bool_decide (voteType = "upvote") then 1 else -1)
          = Client.voteCount st) as -> by lia.
  done.
Qed.

Lemma delta_nonzero vt : vt ∈ directions → delta vt ≠ 0.
Proof. by intros [-> | ->]%directions_cases. Qed.

(** C10 (display after a toggle-off).  When [vote] returned [true] and the
    vote the component recorded has the submitted direction, both
    [handleVote] handlers keep the count they showed and record a vote of
    the submitted direction.  The server, holding that vote, has deleted it
    and moved the score by [- delta]: the count shown differs from the
    stored score, and the component shows a vote where none is left. *)
Theorem toggle_off_display_diverges props voteType now r st v :
  Client.isAuthenticated props = true → Client.vote r = true →
  Client.userVote st = Some v → Client.vote_type v = voteType →
  let shown := Client.handleVote props voteType now r st in
  let compact := Client.compact_handleVote props voteType now r st in
  Client.voteCount shown = Client.voteCount st
  ∧ (∃ v', Client.userVote shown = Some v' ∧ Client.vote_type v' = voteType)
  ∧ Client.voteCount compact = Client.voteCount st
  ∧ (∃ v', Client.userVote compact = Some v' ∧ Client.vote_type v' = voteType)
  ∧ ∀ gen voter d i row s,
      constraints_hold d →
      Client.targetType props ∈ kinds → voteType ∈ directions →
      holds_vote d voter (Client.targetId props) (Client.targetType props) i row →
      vote_type row = voteType →
      score d (Client.targetType props) (Client.targetId props) = Some s →
      integer (s - delta voteType) →
      Client.voteCount st = s →
      let out :=
        submitVote gen voter (Client.targetId props) (Client.targetType props)
          voteType d in
      r = out.1.2 →
      no_vote out.1.1 voter (Client.targetId props) (Client.targetType props)
      ∧ score out.1.1 (Client.targetType props) (Client.targetId props)
        = Some (s - delta voteType)
      ∧ Some (Client.voteCount shown)
        ≠ score out.1.1 (Client.targetType props) (Client.targetId props)
      ∧ Some (Client.voteCount compact)
        ≠ score out.1.1 (Client.targetType props) (Client.targetId props).
Proof.
  intros Ha Hr Hv Hd shown compact.
  destruct (commit_same_direction props voteType now (Client.setIsLoading true st) v Hv Hd)
    as (Hc & Hu & _).
  assert (Client.voteCount shown = Client.voteCount st) as Hs1.
  { subst shown. unfold Client.handleVote. by rewrite Ha, Hr. }
  assert (Client.voteCount compact = Client.voteCount st) as Hs2.
  { subst compact. unfold Client.compact_handleVote. by rewrite Ha, Hr. }
  split_and!; try done.
  - subst shown. unfold Client.handleVote. rewrite Ha, Hr. simpl.
    eexists. split; reflexivity.
  - subst compact. unfold Client.compact_handleVote. rewrite Ha, Hr. simpl.
    eexists. split; reflexivity.
  - intros gen voter d i row s Hcd Hty Hvt Hh Hrow Hsc Hint Hcount out Hout.
    destruct (delete_accepted voter _ _ d i row Hcd Hh) as (d' & Hap & Hvs & _ & Hs').
    { intros s0. rewrite Hsc, Hrow, (vote_value_delta _ Hvt). intros [= <-].
      unfold integer in Hint. lia. }
    assert (out.1 = (d', mk_response 200 success_body)) as E.
    { subst out. rewrite (submit_same _ _ _ _ _ _ i row) by done. by apply applied_Ok. }
    destruct out as [[d1 r1] l1]. simpl in *. injection E as -> ->.
    assert (score d' (Client.targetType props) (Client.targetId props)
            = Some (s - delta voteType)) as Hsd.
    { rewrite Hs', Hsc by done. simpl. f_equal.
      destruct Hh as (_ & _ & <- & <-). by rewrite weight_eq, Hrow, vote_value_delta. }
    pose proof (delta_nonzero _ Hvt) as Hnz.
    split_and!.
    + intros j r' (Hj & Hu' & Ht' & Hy'). rewrite Hvs in Hj.
      apply lookup_delete_Some in Hj as [Hne Hj]. apply Hne.
      destruct Hcd as [(_ & Hun & _) _]. destruct Hh as (Hi & Hu0 & Ht0 & Hy0).
      apply (Hun i j row r' Hi Hj). unfold collides.
      rewrite Hu0, Hu', Ht0, Ht', Hy0, Hy'. eauto.
    + done.
    + rewrite Hsd, Hs1, Hcount. intros [=]. lia.
    + rewrite Hsd, Hs2, Hcount. intros [=]. lia.
Qed.

(** *** The theorems at concrete databases *)

Lemma two_questions_constraints : constraints_hold two_questions.
Proof. apply initial_constraints, two_questions_initial. Qed.

Lemma upvoted_constraints : constraints_hold upvoted.
Proof.
  apply (apply_constraints (INSERT 10 (upvote_on 1)) two_questions).
  - apply two_questions_constraints.
  - by vm_compute.
Qed.

Lemma two_questions_no_vote voter target ty : no_vote two_questions voter target ty.
Proof.
  intros i r [Hi _]. change (votes two_questions) with (∅ : gmap uuid vote) in Hi.
  by rewrite lookup_empty in Hi.
Qed.

Lemma upvoted_holds : holds_vote upvoted 7 1 "question" 10 (upvote_on 1).
Proof. by vm_compute. Qed.

Lemma counter_arithmetic_witness :
  ledger_event (TG_UPDATE (upvote_on 1) (downvote_on 1))
  ∧ score upvoted (event_kind (TG_UPDATE (upvote_on 1) (downvote_on 1)))
      (event_target (TG_UPDATE (upvote_on 1) (downvote_on 1))) = Some 1
  ∧ sums_fit (TG_UPDATE (upvote_on 1) (downvote_on 1)) 1
  ∧ ∃ d', update_vote_count (TG_UPDATE (upvote_on 1) (downvote_on 1)) upvoted = Some d'
          ∧ score d' "question" 1 = Some (1 + (-1 - 1)).
Proof.
  assert (ledger_event (TG_UPDATE (upvote_on 1) (downvote_on 1))) as Hop by done.
  assert (sums_fit (TG_UPDATE (upvote_on 1) (downvote_on 1)) 1) as Hf
    by (split; by vm_compute).
  split_and!; [exact Hop|reflexivity|exact Hf|].
  exact (proj1 (counter_arithmetic (TG_UPDATE (upvote_on 1) (downvote_on 1)) upvoted 1
                  Hop eq_refl) Hf).
Defined.



Lemma two_questions_fits : fits two_questions "question" 1 (vote_value "upvote").
Proof. intros s [= <-]. by vm_compute. Qed.

Lemma toggle_round_trip_witness :
  constraints_hold two_questions ∧ "question" ∈ kinds ∧ "upvote" ∈ directions
  ∧ no_vote two_questions 7 1 "question" ∧ 7%N ∈ profiles two_questions
  ∧ votes two_questions !! 10%N = None
  ∧ fits two_questions "question" 1 (vote_value "upvote")
  ∧ (submitVote 11 7 1 "question" "upvote"
       (submitVote 10 7 1 "question" "upvote" two_questions).1.1).1.1
    = two_questions.
Proof.
  assert (7%N ∈ profiles two_questions) as Hp by by vm_compute.
  split_and!;
    [apply two_questions_constraints|apply question_kind|apply upvote_direction
    |apply two_questions_no_vote|exact Hp|reflexivity|apply two_questions_fits|].
  apply (toggle_round_trip 10 11 7 1 "question" "upvote" two_questions
           two_questions_constraints question_kind upvote_direction
           (two_questions_no_vote 7 1 "question") Hp eq_refl two_questions_fits).
Defined.

Lemma direction_switch_witness :
  constraints_hold upvoted ∧ "question" ∈ kinds
  ∧ holds_vote upvoted 7 1 "question" 10 (upvote_on 1)
  ∧ score upvoted "question" 1 = Some 1
  ∧ vote_type (upvote_on 1) = "upvote" ∧ integer (1 - 2)
  ∧ score (submitVote 11 7 1 "question" "downvote" upvoted).1.1 "question" 1
    = Some (1 - 2).
Proof.
  assert (integer (1 - 2)) as Hi by by vm_compute.
  split_and!;
    [apply upvoted_constraints|apply question_kind|apply upvoted_holds
    |reflexivity|reflexivity|exact Hi|].
  destruct (direction_switch 11 7 1 "question" upvoted 10 (upvote_on 1) 1
              upvoted_constraints question_kind upvoted_holds eq_refl) as [H _].
  exact (proj1 (proj2 (H eq_refl Hi))).
Defined.


Lemma at_the_bound_constraints : constraints_hold at_the_bound.
Proof.
  split; [split_and!|split].
  - apply map_Forall_empty.
  - intros i j r r' Hi. change (votes at_the_bound) with (∅ : gmap uuid vote) in Hi.
    by rewrite lookup_empty in Hi.
  - apply map_Forall_empty.
  - change (questions at_the_bound) with ({[1%N := 2147483647]} : gmap uuid Z).
    apply map_Forall_singleton. by vm_compute.
  - apply map_Forall_empty.
Qed.

Lemma errors_of_the_vote_path_witness :
  issues 10 7 1 "question" "upvote" at_the_bound (INSERT 10 (upvote_on 1))
  ∧ apply (INSERT 10 (upvote_on 1)) at_the_bound = Error numeric_value_out_of_range
  ∧ (POST 10 (signed_in 7) (submit 1 "question" "upvote") at_the_bound).1
    = (at_the_bound,
       mk_response 500 (error_message_body numeric_value_out_of_range)).
Proof.
  assert (issues 10 7 1 "question" "upvote" at_the_bound (INSERT 10 (upvote_on 1)))
    as Hm.
  { left. split; [|done]. intros i r [Hi _].
    change (votes at_the_bound) with (∅ : gmap uuid vote) in Hi.
    by rewrite lookup_empty in Hi. }
  split_and!; [exact Hm|reflexivity|].
  destruct (errors_of_the_vote_path 10 (signed_in 7) (submit 1 "question" "upvote")
              at_the_bound) as (_ & _ & H & _).
  destruct (H 7%N 1%N "question" "upvote" eq_refl eq_refl at_the_bound_constraints
              question_kind upvote_direction) as [_ H'].
  exact (proj1 (H' _ Hm) _ eq_refl).
Defined.

Lemma success_response_shape_witness :
  status (POST 10 (signed_in 7) (submit 1 "question" "upvote") two_questions).1.2 = 200
  ∧ (POST 10 (signed_in 7) (submit 1 "question" "upvote") two_questions).1.2
    = mk_response 200 success_body.
Proof.
  split; [reflexivity|].
  apply (success_response_shape 10 (signed_in 7) (submit 1 "question" "upvote")
           two_questions). reflexivity.
Defined.

Lemma unauthenticated_call_changes_nothing_witness :
  unauthenticated anonymous
  ∧ (POST 10 anonymous vote_on_comment two_questions).1.1 = two_questions.
Proof.
  assert (unauthenticated anonymous) as Hu by (right; reflexivity).
  split; [exact Hu|].
  exact (proj1 (unauthenticated_call_changes_nothing 10 anonymous vote_on_comment
                  two_questions Hu)).
Defined.

Lemma toggle_off_display_diverges_witness :
  let r := (submitVote 11 7 1 "question" "upvote" upvoted).1.2 in
  let now := "2025-07-12T10:05:00.000Z" in
  Client.isAuthenticated shown_props = true ∧ Client.vote r = true
  ∧ Client.userVote shown_state = Some shown_vote
  ∧ Client.vote_type shown_vote = "upvote"
  ∧ Client.voteCount (Client.handleVote shown_props "upvote" now r shown_state) = 1
  ∧ score (submitVote 11 7 1 "question" "upvote" upvoted).1.1 "question" 1 = Some 0.
Proof.
  intros r now.
  split_and!; [reflexivity|reflexivity|reflexivity|reflexivity| |reflexivity].
  exact (proj1 (toggle_off_display_diverges shown_props "upvote" now r shown_state
                  shown_vote eq_refl eq_refl eq_refl eq_refl)).
Defined.

End Properties.

(** ** Further properties of the vote path *)

Module VotePath.
Import Schema Store Route Spec SchemaFacts RouteFacts Properties ExtraSpec.

(** *** The votes table and its trigger *)

Lemma exec_constraints m d : constraints_hold d → constraints_hold (exec m d).
Proof.
  intros Hd. destruct (exec_cases m d) as [(d' & Ha & ->)| ->]; [|done].
  by apply (apply_constraints m d).
Qed.

Lemma held_once d voter target ty i j r r' :
  constraints_hold d →
  holds_vote d voter target ty i r → holds_vote d voter target ty j r' →
  i = j ∧ r = r'.
Proof.
  intros [(_ & Hu & _) _] (Hi & Hus & Hta & Hty) (Hj & Hus' & Hta' & Hty').
  assert (i = j) as <-.
  { apply (Hu i j r r' Hi Hj). unfold collides.
    rewrite Hus, Hus', Hta, Hta', Hty, Hty'. eauto. }
  split; [done|congruence].
Qed.

(** X1.  Constraints of the votes table.  After any sequence of INSERT,
    UPDATE and DELETE statements on the votes table from a database
    without votes and with every score 0, every row satisfies the CHECK
    constraints on [target_type] and [vote_type], every [user_id] that
    is not NULL references a profile, both score columns hold INTEGER
    values, and a voter holds at most one row for a target: two rows of
    the same voter, target and kind are the same row. *)
Theorem constraints_always_hold d0 d :
  initial d0 → reachable d0 d →
  constraints_hold d
  ∧ ∀ voter target ty i j r r',
      holds_vote d voter target ty i r → holds_vote d voter target ty j r' →
      i = j ∧ r = r'.
Proof.
  intros H0 Hr.
  assert (constraints_hold d) as Hd.
  { induction Hr as [|d m Hr IH]; [by apply initial_constraints|by apply exec_constraints]. }
  split; [done|]. intros voter target ty i j r r'. by apply held_once.
Qed.

(** X2.  Score consistency for statements that keep a row's target.
    After any sequence of INSERT, DELETE and UPDATE statements whose
    updates leave [target_id] and [target_type] alone, the score of
    every question and answer is the number of its upvotes minus the
    number of its downvotes. *)
Theorem score_follows_votes d0 d :
  initial d0 → reachable_keeping d0 d → score_consistent d.
Proof. intros H0 Hr. by destruct (reachable_keeping_invariant d0 d H0 Hr). Qed.

Lemma trigger_scores op d d' :
  checked_event op → update_vote_count op d = Some d' →
  ∃ g : Z → Z, ∀ ty id, ty ∈ kinds →
    score d' ty id
    = (λ s, if bool_decide (touched_kind op = ty ∧ touched_id op = id) then g s else s)
        <$> score d ty id.
Proof.
  intros Hop H. destruct op as [NEW|OLD NEW|OLD]; simpl in *.
  - apply check_constraints_true in Hop as [Hn _].
    destruct (update_votes_where_id (table (target_type NEW) d) (target_id NEW)
                (λ votes, int4pl votes (vote_value (vote_type NEW)))) as [t'|] eqn:E;
      [|trigger_table H E].
    exists (λ s, s + vote_value (vote_type NEW)). intros ty id Ht.
    apply (score_after _ _ _ ty id d d' t' _ Hn Ht (λ v v', int4pl_Some v _ v') E).
    trigger_table H E.
  - destruct Hop as [[Hn _]%check_constraints_true _].
    destruct (update_votes_where_id (table (target_type OLD) d) (target_id NEW)
                (λ votes, s ← int4pl votes (vote_value (vote_type NEW));
                          int4mi s (vote_value (vote_type OLD)))) as [t'|] eqn:E;
      [|trigger_table H E].
    exists (λ s, s + vote_value (vote_type NEW) - vote_value (vote_type OLD)).
    intros ty id Ht.
    apply (score_after _ _ _ ty id d d' t' _ Hn Ht (λ v v', int4pl_mi_Some v _ _ v') E).
    trigger_table H E.
  - apply check_constraints_true in Hop as [Hn _].
    destruct (update_votes_where_id (table (target_type OLD) d) (target_id OLD)
                (λ votes, int4mi votes (vote_value (vote_type OLD)))) as [t'|] eqn:E;
      [|trigger_table H E].
    exists (λ s, s - vote_value (vote_type OLD)). intros ty id Ht.
    apply (score_after _ _ _ ty id d d' t' _ Hn Ht (λ v v', int4mi_Some v _ v') E).
    trigger_table H E.
Qed.

(** X3.  Frame of the trigger function.  A run of [update_vote_count]
    for rows that satisfy the CHECK constraints leaves the votes table
    and the profiles as they are, creates and removes no question or
    answer, and changes no score other than the one of the row it
    addresses: the table of [NEW.target_type] (INSERT) or
    [OLD.target_type] (UPDATE, DELETE) at [NEW.target_id] (INSERT,
    UPDATE) or [OLD.target_id] (DELETE). *)
Theorem trigger_touches_one_score op d d' :
  checked_event op → update_vote_count op d = Some d' →
  votes d' = votes d ∧ profiles d' = profiles d
  ∧ dom (questions d') = dom (questions d) ∧ dom (answers d') = dom (answers d)
  ∧ ∀ ty id, ty ∈ kinds → (ty, id) ≠ (touched_kind op, touched_id op) →
      score d' ty id = score d ty id.
Proof.
  intros Hop H. destruct (trigger_frame _ _ _ H) as [Hv Hp].
  destruct (trigger_scores _ _ _ Hop H) as [g Hg].
  split_and!; try done.
  - apply set_eq. intros id. rewrite !elem_of_dom.
    pose proof (Hg "question" id question_kind) as E. unfold score in E.
    change (table "question" d') with (questions d') in E.
    change (table "question" d) with (questions d) in E.
    rewrite E. by rewrite fmap_is_Some.
  - apply set_eq. intros id. rewrite !elem_of_dom.
    pose proof (Hg "answer" id answer_kind) as E. unfold score in E.
    change (table "answer" d') with (answers d') in E.
    change (table "answer" d) with (answers d) in E.
    rewrite E. by rewrite fmap_is_Some.
  - intros ty id Hty Hne. rewrite Hg by done.
    rewrite bool_decide_eq_false_2; [by destruct (score d ty id)|].
    intros [<- <-]. by apply Hne.
Qed.

Lemma set_questions_id d : set_questions (questions d) d = d.
Proof. by destruct d. Qed.
Lemma set_answers_id d : set_answers (answers d) d = d.
Proof. by destruct d. Qed.

Lemma checked_event_kind op : checked_event op → touched_kind op ∈ kinds.
Proof.
  destruct op; simpl.
  - by intros [? _]%check_constraints_true.
  - by intros [[? _]%check_constraints_true _].
  - by intros [? _]%check_constraints_true.
Qed.

(** X4.  A vote on a missing target.  When no question or answer has the
    id the trigger addresses, the UPDATE of the trigger function matches
    no row: the function returns without error and leaves the database
    as it is. *)
Theorem trigger_without_target_row op d :
  checked_event op →
  score d (touched_kind op) (touched_id op) = None →
  update_vote_count op d = Some d.
Proof.
  intros Hop Hs. pose proof (checked_event_kind op Hop) as Hk.
  unfold score, table in Hs.
  destruct op as [NEW|OLD NEW|OLD]; simpl in *; unfold update_votes_where_id;
    case_bool_decide; rewrite Hs; simpl;
    by rewrite ?set_questions_id, ?set_answers_id.
Qed.

(** Refusals at the bounds of INTEGER. *)
Lemma trigger_raises_with ty key f d op :
  (∃ v, score d ty key = Some v ∧ f v = None) →
  (update_vote_count op d
   = q ← update_votes_where_id (table ty d) key f;
     Some (if bool_decide (ty = "question") then set_questions q d else set_answers q d)) →
  update_vote_count op d = None.
Proof.
  intros (v & Hv & Hf) ->. unfold update_votes_where_id, score in *.
  by rewrite Hv, Hf.
Qed.

Lemma insert_trigger_shape NEW d :
  update_vote_count (TG_INSERT NEW) d
  = q ← update_votes_where_id (table (target_type NEW) d) (target_id NEW)
          (λ votes, int4pl votes (vote_value (vote_type NEW)));
    Some (if bool_decide (target_type NEW = "question") then set_questions q d
          else set_answers q d).
Proof. unfold update_vote_count, table. by case_bool_decide. Qed.

Lemma update_trigger_shape OLD NEW d :
  update_vote_count (TG_UPDATE OLD NEW) d
  = q ← update_votes_where_id (table (target_type OLD) d) (target_id NEW)
          (λ votes, s ← int4pl votes (vote_value (vote_type NEW));
                    int4mi s (vote_value (vote_type OLD)));
    Some (if bool_decide (target_type OLD = "question") then set_questions q d
          else set_answers q d).
Proof. unfold update_vote_count, table. by case_bool_decide. Qed.

(** X5.  INTEGER overflow on a new vote.  An upvote on a target whose
    score is the largest INTEGER, or a downvote on a target whose score
    is the smallest, is never inserted: the statement fails, the
    database is unchanged, and where the row passes the checks of the
    votes table the error is numeric_value_out_of_range, raised by the
    trigger. *)
Theorem vote_at_the_bound_is_refused id NEW d :
  (vote_type NEW = "upvote"
   ∧ score d (target_type NEW) (target_id NEW) = Some int4_max)
  ∨ (vote_type NEW = "downvote"
     ∧ score d (target_type NEW) (target_id NEW) = Some int4_min) →
  (∀ d', apply (INSERT id NEW) d ≠ Ok d')
  ∧ exec (INSERT id NEW) d = d
  ∧ (check_constraints NEW = true → votes d !! id = None →
     unique_ok (votes d) NEW = true → foreign_key_ok d NEW = true →
     apply (INSERT id NEW) d = Error numeric_value_out_of_range).
Proof.
  intros Hb.
  assert (update_vote_count (TG_INSERT NEW)
            (set_votes (<[id := NEW]> (votes d)) d) = None) as Ht.
  { eapply trigger_raises_with; [|apply insert_trigger_shape].
    destruct Hb as [[Hv Hs]|[Hv Hs]]; eexists; (split; [exact Hs|]); by rewrite Hv. }
  assert (∀ d', apply (INSERT id NEW) d ≠ Ok d') as Hno.
  { intros d' (_ & _ & _ & _ & E)%insert_vote_Ok. by rewrite Ht in E. }
  split_and!; [done| |].
  - unfold exec. destruct (apply (INSERT id NEW) d) as [d'|] eqn:E; [|done].
    by destruct (Hno d').
  - intros Hc Hi Hu Hf. simpl. unfold insert_vote, fire.
    rewrite Hc, Hu, Hf, Ht. simpl. rewrite bool_decide_eq_false_2; [done|].
    rewrite Hi. by intros [? ?].
Qed.

(** X6.  Overflow of the intermediate sum.  The UPDATE branch of the
    trigger computes [votes + new - old] from left to right, so an
    UPDATE that rewrites an upvote row with its own values fails with
    numeric_value_out_of_range when the target's score is the largest
    INTEGER (and likewise for a downvote at the smallest), although the
    sum [votes + 1 - 1] is in range; the database is unchanged. *)
Theorem rewriting_a_row_at_the_bound_is_refused id OLD d :
  constraints_hold d → votes d !! id = Some OLD →
  (vote_type OLD = "upvote"
   ∧ score d (target_type OLD) (target_id OLD) = Some int4_max)
  ∨ (vote_type OLD = "downvote"
     ∧ score d (target_type OLD) (target_id OLD) = Some int4_min) →
  apply (UPDATE id id OLD) d = Error numeric_value_out_of_range
  ∧ exec (UPDATE id id OLD) d = d.
Proof.
  intros Hd Hi Hb.
  assert (update_vote_count (TG_UPDATE OLD OLD)
            (set_votes (<[id := OLD]> (delete id (votes d))) d) = None) as Ht.
  { eapply trigger_raises_with; [|apply update_trigger_shape].
    destruct Hb as [[Hv Hs]|[Hv Hs]]; eexists; (split; [exact Hs|]); by rewrite Hv. }
  assert (apply (UPDATE id id OLD) d = Error numeric_value_out_of_range) as Ha.
  { destruct Hd as [(Hc & Hu & Hf) _]. simpl. unfold update_vote, fire.
    rewrite Hi, (Hc id OLD Hi), (Hf id OLD Hi), Ht. simpl.
    rewrite bool_decide_eq_false_2 by (rewrite lookup_delete_eq; by intros [? ?]).
    assert (unique_ok (delete id (votes d)) OLD = true) as ->; [|done].
    apply unique_ok_true. intros j r' [Hne Hj]%lookup_delete_Some Hcol.
    by apply Hne, (Hu id j OLD r' Hi Hj). }
  split; [done|]. unfold exec. by rewrite Ha.
Qed.

(** *** The row policies *)

Import Policies.

(** X7.  Row policies of the votes table.  Whatever statement a caller
    sends, a vote row whose [user_id] is not the caller's id is still in
    the table, unchanged, after the statement: the policies for UPDATE
    and DELETE hide the rows of others, and an INSERT replaces no row. *)
Theorem policies_protect_other_rows caller m d j r :
  votes d !! j = Some r → own_row caller r = false →
  votes (after (through_policies caller m d) d) !! j = Some r.
Proof.
  intros Hj Hown. destruct m as [id NEW|id new_id NEW|id]; simpl.
  - destruct (authenticated caller); [|done]. simpl.
    destruct (insert_vote id NEW d) as [d'|] eqn:E; [|done]. simpl.
    apply insert_vote_Ok in E as (_ & Hid & _ & _ & [-> _]%trigger_frame). simpl.
    rewrite lookup_insert_ne; [done|]. intros ->. congruence.
  - destruct (votes d !! id) as [OLD|] eqn:Hid; [|done].
    destruct (own_row caller OLD) eqn:Ho; [|done].
    destruct (own_row caller NEW); [|done]. simpl.
    destruct (update_vote id new_id NEW d) as [d'|] eqn:E; [|done]. simpl.
    apply update_vote_Ok in E as [[_ ->]|(OLD' & _ & _ & Hnew & _ & _ & [-> _]%trigger_frame)];
      [done|]. simpl.
    assert (j ≠ id) as Hne by (intros ->; congruence).
    rewrite lookup_insert_ne; [by rewrite lookup_delete_ne|].
    intros ->. rewrite lookup_delete_ne in Hnew by done. congruence.
  - destruct (votes d !! id) as [OLD|] eqn:Hid; [|done].
    destruct (own_row caller OLD) eqn:Ho; [|done]. simpl.
    destruct (delete_vote id d) as [d'|] eqn:E; [|done]. simpl.
    apply delete_vote_Ok in E as [[_ ->]|(OLD' & _ & [-> _]%trigger_frame)]; [done|].
    simpl. rewrite lookup_delete_ne; [done|]. intros ->. congruence.
Qed.

(** X8.  The INSERT policy checks the role only.  A signed-in caller can
    insert a vote row that carries another user's id: the policy
    [Authenticated users can vote] accepts it, the row is stored as the
    other user's vote, the target's score moves by the vote's value, and
    the row is one the caller can neither update nor delete afterwards. *)
Theorem insert_policy_accepts_another_users_id caller other id target ty vt d :
  caller ≠ other → ty ∈ kinds → vt ∈ directions →
  no_vote d other target ty → other ∈ profiles d → votes d !! id = None →
  fits d ty target (vote_value vt) →
  let NEW := mk_vote (Some other) target ty vt in
  ∃ d', through_policies (Some caller) (INSERT id NEW) d = runs (Ok d')
        ∧ own_row (Some caller) NEW = false
        ∧ holds_vote d' other target ty id NEW
        ∧ ∀ s, score d ty target = Some s → score d' ty target = Some (s + delta vt).
Proof.
  intros Hne Hty Hvt Hn Hp Hid Hf NEW.
  destruct (insert_accepted id other target ty vt d) as (d' & Ha & Hv & _ & Hs); try done.
  subst NEW. exists d'. split_and!.
  - unfold through_policies, authenticated. by rewrite Ha.
  - simpl. by apply bool_decide_eq_false.
  - split; [|done]. rewrite Hv. apply lookup_insert_eq.
  - intros s Es. rewrite Hs, Es by done. simpl.
    by rewrite weight_target, vote_value_delta.
Qed.

(** *** The route *)

(** X9.  Validation of the request body.  A body with a missing or empty
    field is answered 400 [Missing required fields]; with all fields
    present, a target type other than question and answer is answered
    400 [Invalid target type], also when the vote type is invalid as
    well; with a valid target type, a vote type other than upvote and
    downvote is answered 400 [Invalid vote type].  This holds for every
    caller, signed in or not, and the database is unchanged. *)
Theorem malformed_request_is_400 gen auth b d :
  (body_target_id b = None ∨ empty_field (body_target_type b)
   ∨ empty_field (body_vote_type b) →
   POST gen auth (Some b) d = refusal "Missing required fields" d)
  ∧ (∀ t ty vt, b = mk_body (Some t) (Some ty) (Some vt) →
       ty ≠ "" → vt ≠ "" → ty ∉ kinds →
       POST gen auth (Some b) d = refusal "Invalid target type" d)
  ∧ (∀ t ty vt, b = mk_body (Some t) (Some ty) (Some vt) →
       ty ∈ kinds → vt ≠ "" → vt ∉ directions →
       POST gen auth (Some b) d = refusal "Invalid vote type" d)
  ∧ (¬ well_formed (Some b) →
       status (POST gen auth (Some b) d).1.2 = 400 ∧ (POST gen auth (Some b) d).1.1 = d).
Proof.
  unfold POST, refusal, empty_field. destruct b as [[t|] [ty|] [vt|]]; simpl.
  2-8: split_and!; [intros _; reflexivity|intros ??? ?; simplify_eq..|intros _; split; reflexivity].
  destruct (decide (ty = "")) as [->|Hty].
  { split_and!; [done|intros ??? [= <- <- <-]; congruence| |by intros _].
    intros ??? [= <- <- <-] Hk. by destruct (kinds_cases _ Hk). }
  destruct (decide (vt = "")) as [->|Hvt].
  { rewrite bool_decide_eq_false_2 by done. simpl.
    split_and!; [done|intros ??? [= <- <- <-]; congruence..|by intros _]. }
  rewrite !(bool_decide_eq_false_2 (_ = "")) by done. simpl.
  destruct (decide (ty ∈ kinds)) as [Hk|Hk].
  2: { rewrite (bool_decide_eq_false_2 (ty ∈ _)) by done. simpl.
       split_and!; [intros [?|[[?|?]|[?|?]]]; congruence|done|by intros ??? [= <- <- <-]|done]. }
  rewrite (bool_decide_eq_true_2 (ty ∈ _)) by done. simpl.
  destruct (decide (vt ∈ directions)) as [Hd|Hd].
  2: { rewrite (bool_decide_eq_false_2 (vt ∈ _)) by done. simpl.
       split_and!; [intros [?|[[?|?]|[?|?]]]; congruence|by intros ??? [= <- <- <-]|done|done]. }
  split_and!.
  - intros [?|[[?|?]|[?|?]]]; congruence.
  - by intros ??? [= <- <- <-].
  - by intros ??? [= <- <- <-].
  - intros Hw. destruct Hw. by exists t, ty, vt.
Qed.

Lemma change_votes_database gen voter target ty vt existing d log :
  let d' := (change_votes gen voter target ty vt existing d log).1.1 in
  d' = d ∨ ∃ m, apply m d = Ok d'.
Proof.
  unfold change_votes. destruct existing as [[i r]|].
  - case_bool_decide.
    + destruct (delete_vote i d) as [d'|] eqn:E; rewrite ?finish_eq; simpl; [|by left].
      right. by exists (DELETE i).
    + destruct (update_vote i i _ d) as [d'|] eqn:E; rewrite ?finish_eq; simpl; [|by left].
      right. by eexists (UPDATE i i _).
  - destruct target as [target|]; simpl; [|by left].
    destruct (insert_vote gen _ d) as [d'|] eqn:E; rewrite ?finish_eq; simpl; [|by left].
    right. by eexists (INSERT gen _).
Qed.

(** The database changes only for a signed-in caller with a well-formed
    request, and then by one accepted statement. *)
Lemma POST_database gen auth request d :
  let d' := (POST gen auth request d).1.1 in
  d' = d
  ∨ (∃ m, apply m d = Ok d')
    ∧ (∃ voter, user auth = Some voter ∧ authError auth = false)
    ∧ well_formed request
    ∧ ∃ target ty vt, request = submit target ty vt.
Proof.
  unfold POST. destruct request as [[[t|] [ty|] [vt|]]|]; try (by left).
  cbn [body_target_id body_target_type body_vote_type].
  destruct (bool_decide (ty = "") || bool_decide (vt = "")); [by left|].
  destruct (bool_decide (ty ∈ ["question"; "answer"])) eqn:Hk; [|by left].
  destruct (bool_decide (vt ∈ ["upvote"; "downvote"])) eqn:Hd; [|by left].
  apply bool_decide_eq_true in Hk, Hd. simpl.
  destruct auth as [[u|] [|]]; cbn [authError user]; try (by left).
  unfold process. destruct t as [target|]; [|by left].
  destruct (single (select_votes d u (uuid_text target) ty)) as [existing err].
  destruct (check_failed err); [by left|].
  destruct (change_votes_database gen u (uuid_text target) ty vt existing d
              [console_log "Processing vote:"]) as [?|?]; [by left|right].
  split_and!; [done|by exists u|by exists (uuid_text target), ty, vt
              |by exists target, ty, vt].
Qed.

Lemma POST_constraints gen auth request d :
  constraints_hold d → constraints_hold (POST gen auth request d).1.1.
Proof.
  intros Hd. destruct (POST_database gen auth request d) as [->|[[m Hm] _]]; [done|].
  by apply (apply_constraints m d).
Qed.

(** X10.  The route keeps the constraints.  Whatever the request and the
    caller, the database after a call of [POST] satisfies the
    constraints of the schema when the database before did, and a voter
    holds at most one vote row for a target. *)
Theorem POST_keeps_constraints gen auth request d :
  constraints_hold d →
  constraints_hold (POST gen auth request d).1.1
  ∧ ∀ voter target ty i j r r',
      holds_vote (POST gen auth request d).1.1 voter target ty i r →
      holds_vote (POST gen auth request d).1.1 voter target ty j r' →
      i = j ∧ r = r'.
Proof.
  intros Hd. pose proof (POST_constraints gen auth request d Hd) as Hd'.
  split; [done|]. intros voter target ty i j r r'. by apply held_once.
Qed.


Lemma submit_cases gen voter target ty vt d :
  constraints_hold d → ty ∈ kinds → vt ∈ directions →
  let NEW := mk_vote (Some voter) target ty vt in
  ∃ m, (submitVote gen voter target ty vt d).1 = applied m d
       ∧ ((no_vote d voter target ty ∧ m = INSERT gen NEW)
          ∨ ∃ i r, holds_vote d voter target ty i r
                   ∧ ((vote_type r = vt ∧ m = DELETE i)
                      ∨ (vote_type r ≠ vt ∧ m = UPDATE i i NEW))).
Proof.
  intros Hd Hty Hvt NEW.
  destruct (held_or_none d voter target ty) as [(i & r & Hh)|Hn].
  - destruct (decide (vote_type r = vt)) as [Hr|Hr].
    + exists (DELETE i). split; [by apply (submit_same _ _ _ _ _ _ i r)|].
      right. exists i, r. eauto.
    + exists (UPDATE i i NEW). split; [by apply (submit_other _ _ _ _ _ _ i r)|].
      right. exists i, r. eauto.
  - exists (INSERT gen NEW). split; [by apply submit_no_vote|]. by left.
Qed.

Lemma fmap_id_score (o : option Z) (h : Z → Z) : (∀ s, h s = s) → h <$> o = o.
Proof. intros E. destruct o; simpl; by rewrite ?E. Qed.

Lemma weight_other r ty id :
  (ty, id) ≠ (target_type r, target_id r) → weight r ty id = 0.
Proof.
  intros Hne. apply weight_ne.
  destruct (decide (target_type r = ty)) as [<-|]; [|by left].
  destruct (decide (target_id r = id)) as [<-|]; [|by right].
  by destruct Hne.
Qed.

(** X12.  Frame of a vote.  A call of the route for a voter and a target
    leaves the profiles, every vote row of another voter or on another
    target, and the score of every other question and answer as they
    are. *)
Theorem vote_changes_only_its_own_row gen voter target ty vt d :
  constraints_hold d →
  let d' := (submitVote gen voter target ty vt d).1.1 in
  profiles d' = profiles d
  ∧ (∀ j r, votes d !! j = Some r → foreign_row voter target ty r →
            votes d' !! j = Some r)
  ∧ (∀ ty' id', ty' ∈ kinds → (ty', id') ≠ (ty, target) →
                score d' ty' id' = score d ty' id').
Proof.
  intros Hd d'.
  destruct (POST_database gen (signed_in voter) (submit target ty vt) d)
    as [E|(_ & _ & (t0 & ty0 & vt0 & [= <- <- <-] & Hty & Hvt) & _)].
  { subst d'. unfold submitVote. by rewrite E. }
  destruct (submit_cases gen voter target ty vt d Hd Hty Hvt) as (m & Hm & Hcase).
  assert (d' = exec m d) as -> by (subst d'; by rewrite Hm).
  destruct (exec_cases m d) as [(d1 & Ha & ->)| ->]; [|done].
  destruct Hcase as [[Hn ->]|(i & r & Hh & [[Hr ->]|[Hr ->]])]; simpl in Ha.
  - apply insert_vote_Ok in Ha as ([Hk _]%check_constraints_true & Hid & _ & _ & Ht).
    destruct (trigger_frame _ _ _ Ht) as [Hv Hp]. split_and!; [done| |].
    + intros j r Hj _. rewrite Hv. simpl. rewrite lookup_insert_ne; [done|].
      intros ->. congruence.
    + intros ty' id' Hty' Hne. rewrite (score_insert _ _ _ ty' id' Ht Hk Hty').
      rewrite score_set_votes. apply fmap_id_score. intros s.
      rewrite weight_other by done. lia.
  - apply delete_vote_Ok in Ha as [[Hi _]|(OLD & Hi & Ht)];
      [destruct Hh as [Hi' _]; congruence|].
    destruct Hh as (Hi' & Hu & Hta & Hty'). rewrite Hi in Hi'. injection Hi' as ->.
    destruct (row_checked d i r Hd Hi) as [Hk _].
    destruct (trigger_frame _ _ _ Ht) as [Hv Hp]. split_and!; [done| |].
    + intros j r' Hj Hfor. rewrite Hv. simpl. rewrite lookup_delete_ne; [done|].
      intros ->. rewrite Hi in Hj. injection Hj as <-. by destruct Hfor.
    + intros ty' id' Hk' Hne. rewrite (score_delete _ _ _ ty' id' Ht Hk Hk').
      rewrite score_set_votes. apply fmap_id_score. intros s.
      rewrite weight_other; [lia|]. by rewrite Hta, Hty'.
  - apply update_vote_Ok in Ha as [[Hi _]|(OLD & Hi & _ & _ & _ & _ & Ht)];
      [destruct Hh as [Hi' _]; congruence|].
    destruct Hh as (Hi' & Hu & Hta & Hty'). rewrite Hi in Hi'. injection Hi' as ->.
    destruct (row_checked d i r Hd Hi) as [Hk _].
    destruct (trigger_frame _ _ _ Ht) as [Hv Hp]. split_and!; [done| |].
    + intros j r' Hj Hfor. rewrite Hv. simpl.
      assert (i ≠ j) as Hij.
      { intros ->. rewrite Hi in Hj. injection Hj as <-. by destruct Hfor. }
      by rewrite lookup_insert_ne, lookup_delete_ne.
    + intros ty' id' Hk' Hne.
      rewrite (score_update _ _ _ _ ty' id' Ht) by done.
      rewrite score_set_votes. apply fmap_id_score. intros s.
      rewrite (weight_other r), weight_other; [lia|done|].
      by rewrite Hta, Hty'.
Qed.

Lemma effective_state_none d voter target ty :
  no_vote d voter target ty → effective_state d voter target ty = NoVote.
Proof. intros Hn. unfold effective_state. by rewrite select_votes_none. Qed.

Lemma effective_state_held d voter target ty i r :
  constraints_hold d → holds_vote d voter target ty i r →
  effective_state d voter target ty = state_of (vote_type r).
Proof.
  intros Hd Hh. unfold effective_state. by rewrite (select_votes_held _ _ _ _ i r).
Qed.

Lemma state_of_not_NoVote vt : state_of vt ≠ NoVote.
Proof. unfold state_of. by case_bool_decide. Qed.

Lemma state_of_inj a b :
  a ∈ directions → b ∈ directions → state_of a = state_of b → a = b.
Proof. by intros [-> | ->]%directions_cases [-> | ->]%directions_cases. Qed.

Lemma applied_200 m d out :
  out = applied m d → status out.2 = 200 → apply m d = Ok out.1.
Proof.
  intros -> H. unfold applied, exec in *. simpl in *.
  by destruct (apply m d).
Qed.

Lemma deleted_row_leaves_no_vote d d' voter target ty i r :
  constraints_hold d → holds_vote d voter target ty i r →
  votes d' = delete i (votes d) → no_vote d' voter target ty.
Proof.
  intros Hd Hh Hv j r' (Hj & Hrest). rewrite Hv in Hj.
  apply lookup_delete_Some in Hj as [Hne Hj]. apply Hne.
  by destruct (held_once d voter target ty i j r r' Hd Hh (conj Hj Hrest)).
Qed.

Lemma row_after_vote gen voter target ty vt d :
  constraints_hold d → ty ∈ kinds → vt ∈ directions →
  let out := submitVote gen voter target ty vt d in
  status out.1.2 = 200 →
  (effective_state d voter target ty = state_of vt ∧ no_vote out.1.1 voter target ty)
  ∨ (effective_state d voter target ty ≠ state_of vt
     ∧ ∃ i, holds_vote out.1.1 voter target ty i (mk_vote (Some voter) target ty vt)).
Proof.
  intros Hd Hty Hvt out Hs.
  destruct (submit_cases gen voter target ty vt d Hd Hty Hvt) as (m & Hm & Hcase).
  pose proof (applied_200 m d _ Hm Hs) as Ha. fold out in Ha.
  destruct Hcase as [[Hn ->]|(i & r & Hh & [[Hr ->]|[Hr ->]])]; simpl in Ha.
  - right. split.
    { rewrite effective_state_none by done. intros E. by destruct (state_of_not_NoVote vt). }
    apply insert_vote_Ok in Ha as (_ & _ & _ & _ & [Hv _]%trigger_frame).
    exists gen. split; [|done]. rewrite Hv. apply lookup_insert_eq.
  - left. split; [by rewrite (effective_state_held _ _ _ _ i r), Hr|].
    apply delete_vote_Ok in Ha as [[Hi _]|(OLD & _ & [Hv _]%trigger_frame)];
      [destruct Hh as [Hi' _]; congruence|].
    by apply (deleted_row_leaves_no_vote d _ _ _ _ i r).
  - right. split.
    { rewrite (effective_state_held _ _ _ _ i r) by done.
      intros E. apply Hr, state_of_inj; try done.
      destruct Hh as [Hi _]. by destruct (row_checked d i r Hd Hi). }
    apply update_vote_Ok in Ha as [[Hi _]|(OLD & _ & _ & _ & _ & _ & [Hv _]%trigger_frame)];
      [destruct Hh as [Hi' _]; congruence|].
    exists i. split; [|done]. rewrite Hv. apply lookup_insert_eq.
Qed.

(** X13.  The voter's stance after a successful call.  After a call
    answered 200, the voter holds no vote on the target when the voter's
    vote had the requested direction before, and holds a vote of the
    requested direction otherwise. *)
Theorem stance_after_vote gen voter target ty vt d :
  constraints_hold d → ty ∈ kinds → vt ∈ directions →
  let out := submitVote gen voter target ty vt d in
  status out.1.2 = 200 →
  effective_state out.1.1 voter target ty
  = if decide (effective_state d voter target ty = state_of vt) then NoVote
    else state_of vt.
Proof.
  intros Hd Hty Hvt out Hs.
  assert (constraints_hold out.1.1) as Hd' by by apply POST_constraints.
  destruct (row_after_vote gen voter target ty vt d Hd Hty Hvt Hs)
    as [[E Hn]|[E [i Hh]]]; fold out in Hn || fold out in Hh.
  - rewrite decide_True by done. by apply effective_state_none.
  - rewrite decide_False by done. by rewrite (effective_state_held _ _ _ _ i _ Hd' Hh).
Qed.

Import Api.

Lemma getUserVote_held voter target ty d i r :
  constraints_hold d → holds_vote d voter target ty i r →
  getUserVote (signed_in voter) target ty d = Some (i, r).
Proof.
  intros Hd Hh. unfold getUserVote, signed_in. cbn [authError user].
  by rewrite (select_votes_held _ _ _ _ i r).
Qed.

Lemma getUserVote_none voter target ty d :
  no_vote d voter target ty → getUserVote (signed_in voter) target ty d = None.
Proof.
  intros Hn. unfold getUserVote, signed_in. cbn [authError user].
  by rewrite select_votes_none.
Qed.

(** X14.  [getUserVote] reads the caller's own vote.  Without a
    signed-in user it returns null; for a signed-in user a returned row
    is the user's row for the target; on a database that satisfies the
    constraints it returns the row the user holds, and null when the
    user holds none. *)
Theorem getUserVote_finds_the_held_row auth voter target ty d i r :
  (unauthenticated auth → getUserVote auth target ty d = None)
  ∧ (getUserVote (signed_in voter) target ty d = Some (i, r) →
     holds_vote d voter target ty i r)
  ∧ (constraints_hold d → holds_vote d voter target ty i r →
     getUserVote (signed_in voter) target ty d = Some (i, r))
  ∧ (no_vote d voter target ty → getUserVote (signed_in voter) target ty d = None).
Proof.
  split_and!.
  - intros [Hu|Hu]; unfold getUserVote; rewrite Hu; [done|by destruct (authError auth)].
  - unfold getUserVote, signed_in, select_votes. cbn [authError user].
    destruct (map_to_list _) as [|[j r'] [|]] eqn:E; try done.
    simpl. intros [= -> ->].
    assert ((i, r) ∈ [(i, r)]) as Hin by by apply list_elem_of_singleton.
    rewrite <-E in Hin. apply elem_of_map_to_list in Hin.
    by apply map_lookup_filter_Some in Hin.
  - apply getUserVote_held.
  - apply getUserVote_none.
Qed.

(** X15.  [getUserVote] after a vote.  After a call of the route
    answered 200, [getUserVote] for the same voter and target returns
    null when the call retracted the vote, and a row of the requested
    direction for that voter and target otherwise. *)
Theorem getUserVote_after_vote gen voter target ty vt d :
  constraints_hold d → ty ∈ kinds → vt ∈ directions →
  let out := submitVote gen voter target ty vt d in
  status out.1.2 = 200 →
  (effective_state d voter target ty = state_of vt
   ∧ getUserVote (signed_in voter) target ty out.1.1 = None)
  ∨ (effective_state d voter target ty ≠ state_of vt
     ∧ ∃ i, getUserVote (signed_in voter) target ty out.1.1
            = Some (i, mk_vote (Some voter) target ty vt)).
Proof.
  intros Hd Hty Hvt out Hs.
  assert (constraints_hold out.1.1) as Hd' by by apply POST_constraints.
  destruct (row_after_vote gen voter target ty vt d Hd Hty Hvt Hs)
    as [[E Hn]|[E [i Hh]]]; fold out in Hn || fold out in Hh.
  - left. split; [done|].
    by apply getUserVote_none.
  - right. split; [done|]. exists i.
    by apply getUserVote_held.
Qed.

Lemma update_trigger_intermediate OLD NEW d d' s :
  update_vote_count (TG_UPDATE OLD NEW) d = Some d' →
  score d (target_type OLD) (target_id NEW) = Some s →
  integer (s + vote_value (vote_type NEW)).
Proof.
  rewrite update_trigger_shape. unfold update_votes_where_id, score. intros H Hs.
  rewrite Hs in H. simpl in H.
  destruct (int4pl s (vote_value (vote_type NEW))) as [v|] eqn:E; [|done].
  by apply int4_Some in E as [_ ?].
Qed.

(** X16.  Switching a vote and switching back.  When the voter holds a
    vote, a successful call with the other direction followed by a call
    with the original direction is answered 200 both times and leaves
    the whole database, rows and scores, as it was before the first
    call; the row keeps its key. *)
Theorem switching_back_restores gen gen' voter target ty vt d i r :
  constraints_hold d → ty ∈ kinds → vt ∈ directions →
  holds_vote d voter target ty i r → vote_type r ≠ vt →
  let first := submitVote gen voter target ty vt d in
  let second := submitVote gen' voter target ty (vote_type r) first.1.1 in
  status first.1.2 = 200 →
  status second.1.2 = 200 ∧ second.1.1 = d.
Proof.
  intros Hd Hty Hvt Hh Hr first second Hs.
  pose proof (submit_other gen voter target ty vt d i r Hd Hty Hvt Hh Hr) as E1.
  fold first in E1.
  pose proof (applied_200 _ _ _ E1 Hs) as Ha.
  set (d1 := first.1.1) in *.
  assert (constraints_hold d1) as Hd1 by exact (apply_constraints _ _ _ Hd Ha).
  simpl in Ha.
  destruct (Hh) as (Hi & Hu & Hta & Hty').
  destruct (row_checked d i r Hd Hi) as [Hk Hdr].
  assert (r = mk_vote (Some voter) target ty (vote_type r)) as Hrow.
  { destruct r; simpl in *. by subst. }
  apply update_vote_Ok in Ha as [[Hi' _]|(OLD & Hi' & _ & _ & _ & _ & Ht)]; [congruence|].
  rewrite Hi in Hi'. injection Hi' as <-.
  destruct (trigger_frame _ _ _ Ht) as [Hv1 Hp1]. simpl in Hv1, Hp1.
  rewrite insert_delete_eq in Hv1.
  assert (∀ ty' id, ty' ∈ kinds →
            score d1 ty' id
            = (λ s, s + weight (mk_vote (Some voter) target ty vt) ty' id - weight r ty' id)
                <$> score d ty' id) as Hs1.
  { intros ty' id Hty1. by rewrite (score_update _ _ _ _ ty' id Ht). }
  assert (holds_vote d1 voter target ty i (mk_vote (Some voter) target ty vt)) as Hh1.
  { split; [|done]. rewrite Hv1. apply lookup_insert_eq. }
  assert (weight r ty target = vote_value (vote_type r)) as Hw.
  { rewrite <-Hta, <-Hty'. apply weight_eq. }
  destruct (update_accepted voter target ty (vote_type r) d1 i _ Hd1 Hdr Hh1)
    as (d2 & Ha2 & Hv2 & Hp2 & Hs2).
  { intros s1. rewrite Hs1 by done.
    destruct (score d ty target) as [s|] eqn:Es; [|done]. simpl. intros [= <-].
    rewrite weight_target, Hw.
    assert (integer (s + vote_value vt)) as Hint.
    { apply (update_trigger_intermediate r (mk_vote (Some voter) target ty vt) _ _ s Ht).
      rewrite score_set_votes. simpl. by rewrite Hty'. }
    unfold integer in Hint. lia. }
  { intros s1. rewrite Hs1 by done.
    destruct (score d ty target) as [s|] eqn:Es; [|done]. simpl. intros [= <-].
    rewrite weight_target, Hw.
    pose proof (score_integer d ty target s Hd Hty Es) as Hint.
    unfold integer in Hint. lia. }
  assert (second.1 = (d2, mk_response 200 success_body)) as E2.
  { subst second. fold d1.
    rewrite (submit_other _ _ _ _ _ _ i (mk_vote (Some voter) target ty vt))
      by (done || (simpl; congruence)).
    by apply applied_Ok. }
  destruct second as [[d2' r2] l2]. simpl in *. injection E2 as -> ->.
  split; [done|]. apply database_eq.
  - by rewrite Hp2, Hp1.
  - rewrite Hv2, Hv1, insert_insert_eq, <-Hrow. by apply insert_id.
  - intros ty' id Hk'. rewrite Hs2, Hs1 by done. rewrite <-Hrow.
    destruct (score d ty' id); simpl; f_equal; lia.
Qed.

(** *** The client *)

Lemma POST_status gen auth request d :
  let s := status (POST gen auth request d).1.2 in
  s = 200 ∨ s = 400 ∨ s = 401 ∨ s = 500.
Proof.
  unfold POST. destruct request as [[[t|] [ty|] [vt|]]|]; simpl; auto.
  destruct (bool_decide (ty = "") || bool_decide (vt = "")); simpl; auto.
  destruct (negb (bool_decide (ty ∈ ["question"; "answer"]))); simpl; auto.
  destruct (negb (bool_decide (vt ∈ ["upvote"; "downvote"]))); simpl; auto.
  destruct auth as [[u|] [|]]; simpl; auto.
  unfold process. destruct (single (select_votes d u t ty)) as [existing err].
  destruct (check_failed err); simpl; auto.
  unfold change_votes. destruct existing as [[i r]|].
  - case_bool_decide.
    + destruct (delete_vote i d); rewrite ?finish_eq; simpl; auto.
    + destruct (update_vote i i _ d); rewrite ?finish_eq; simpl; auto.
  - destruct (insert_votes gen u t ty vt d); rewrite ?finish_eq; simpl; auto.
Qed.

Lemma vote_iff_200 gen auth request d :
  Client.vote (POST gen auth request d).1.2 = true
  ↔ status (POST gen auth request d).1.2 = 200.
Proof.
  split.
  - unfold Client.vote, Client.ok.
    destruct (POST_status gen auth request d) as [E|[E|[E|E]]]; rewrite E; done.
  - intros E. destruct (POST_outcome gen auth request d) as (_ & H & _).
    destruct (H E) as [-> _]. done.
Qed.

Lemma failed_vote_unchanged gen auth request d :
  let out := POST gen auth request d in
  Client.vote out.1.2 = false → out.1.1 = d ∧ status out.1.2 ≠ 200.
Proof.
  intros out E. destruct (POST_outcome gen auth request d) as (H1 & _).
  fold out in H1. pose proof (vote_iff_200 gen auth request d) as Hv. fold out in Hv.
  assert (status out.1.2 ≠ 200) as Hne.
  { intros E'. apply Hv in E'. congruence. }
  split; [by apply H1|done].
Qed.

(** X17.  The client call [vote] returns true exactly when the route
    answers 200 with [success: true]; when it returns false the database
    is as it was before the call. *)
Theorem vote_reports_the_answer gen auth request d :
  let out := POST gen auth request d in
  (Client.vote out.1.2 = true ↔ out.1.2 = mk_response 200 success_body)
  ∧ (Client.vote out.1.2 = false → out.1.1 = d ∧ status out.1.2 ≠ 200).
Proof.
  intros out. destruct (POST_outcome gen auth request d) as (_ & H2 & _).
  fold out in H2. pose proof (vote_iff_200 gen auth request d) as Hv. fold out in Hv.
  split.
  - split; [intros E; by apply H2, Hv|by intros ->].
  - apply failed_vote_unchanged.
Qed.

Lemma state_of_vote_value a b : state_of a = state_of b → vote_value a = vote_value b.
Proof. unfold state_of, vote_value. by repeat case_bool_decide. Qed.

Lemma recorded_NoVote st : recorded st = NoVote → Client.userVote st = None.
Proof.
  unfold recorded. destruct (Client.userVote st); [|done].
  intros E. by destruct (state_of_not_NoVote _ E).
Qed.

Lemma display_in_sync gen voter d props vt now st
    (handle : Client.VotingButtonsProps → string → string → response → Client.state → Client.state) :
  (∀ r, Client.vote r = false →
        Client.userVote (handle props vt now r st) = Client.userVote st
        ∧ Client.voteCount (handle props vt now r st) = Client.voteCount st) →
  (∀ r, Client.vote r = true →
        Client.userVote (handle props vt now r st)
        = Client.userVote (Client.commit props vt now st)
        ∧ Client.voteCount (handle props vt now r st)
          = Client.voteCount (Client.commit props vt now st)) →
  constraints_hold d → Client.targetType props ∈ kinds → vt ∈ directions →
  in_sync st d voter (Client.targetId props) (Client.targetType props) →
  effective_state d voter (Client.targetId props) (Client.targetType props)
  ≠ state_of vt →
  let out := submitVote gen voter (Client.targetId props) (Client.targetType props) vt d in
  in_sync (handle props vt now out.1.2 st) out.1.1 voter
    (Client.targetId props) (Client.targetType props).
Proof.
  intros Hfail Hok Hd Hty Hvt [Hsc Hrec] Hne out.
  set (target := Client.targetId props) in *. set (ty := Client.targetType props) in *.
  destruct (Client.vote out.1.2) eqn:Ev.
  2: { destruct (failed_vote_unchanged gen (signed_in voter) (submit target ty vt) d Ev)
         as [E _]. fold (submitVote gen voter target ty vt d) in E.
       fold out in E. rewrite E. destruct (Hfail _ Ev) as [Hu Hc].
       split; [by rewrite Hc|]. unfold recorded. by rewrite Hu. }
  apply vote_iff_200 in Ev as Hs. fold (submitVote gen voter target ty vt d) in Hs.
  fold out in Hs. destruct (Hok _ Ev) as [Hu Hc].
  assert (constraints_hold out.1.1) as Hd' by by apply POST_constraints.
  split.
  - rewrite Hc.
    destruct (submit_cases gen voter target ty vt d Hd Hty Hvt) as (m & Hm & Hcase).
    pose proof (applied_200 m d _ Hm Hs) as Ha. fold out in Ha.
    destruct Hcase as [[Hn ->]|(i & r & Hh & [[Hr ->]|[Hr ->]])]; simpl in Ha.
    + apply insert_vote_Ok in Ha as (_ & _ & _ & _ & Ht).
      rewrite (score_insert _ _ _ ty target Ht) by done.
      rewrite score_set_votes, Hsc. simpl. rewrite weight_target.
      rewrite effective_state_none in Hrec by done.
      unfold Client.commit. rewrite (recorded_NoVote st Hrec). done.
    + destruct Hne. by rewrite (effective_state_held _ _ _ _ i r), Hr.
    + destruct (Hh) as (Hi & Hus & Hta & Hty').
      destruct (row_checked d i r Hd Hi) as [Hk _].
      apply update_vote_Ok in Ha as [[Hi' _]|(OLD & Hi' & _ & _ & _ & _ & Ht)];
        [congruence|].
      rewrite Hi in Hi'. injection Hi' as <-.
      rewrite (score_update _ _ _ _ ty target Ht) by done.
      rewrite score_set_votes, Hsc. simpl. rewrite weight_target.
      assert (weight r ty target = vote_value (vote_type r)) as ->.
      { rewrite <-Hta, <-Hty'. apply weight_eq. }
      rewrite (effective_state_held _ _ _ _ i r) in Hrec by done.
      unfold recorded in Hrec. unfold Client.commit.
      destruct (Client.userVote st) as [v|]; [|by destruct (state_of_not_NoVote _ (eq_sym Hrec))].
      apply state_of_vote_value in Hrec. simpl. f_equal.
      unfold vote_value in *. lia.
  - unfold recorded. rewrite Hu. simpl.
    destruct (row_after_vote gen voter target ty vt d Hd Hty Hvt Hs)
      as [[E _]|[_ [i Hh]]]; [done|]. fold out in Hh.
    by rewrite (effective_state_held _ _ _ _ i _ Hd' Hh).
Qed.

(** X18.  The buttons after a new vote or a switch.  When the buttons
    show the stored score and the voter's stored stance, and the voter
    clicks a direction other than the one held, then after the call the
    score and the stance shown by either [handleVote] handler are again
    the stored ones. *)
Theorem display_follows_server gen voter d props vt now st :
  constraints_hold d → Client.targetType props ∈ kinds → vt ∈ directions →
  Client.isAuthenticated props = true →
  in_sync st d voter (Client.targetId props) (Client.targetType props) →
  effective_state d voter (Client.targetId props) (Client.targetType props)
  ≠ state_of vt →
  let out := submitVote gen voter (Client.targetId props) (Client.targetType props) vt d in
  in_sync (Client.handleVote props vt now out.1.2 st) out.1.1 voter
    (Client.targetId props) (Client.targetType props)
  ∧ in_sync (Client.compact_handleVote props vt now out.1.2 st) out.1.1 voter
      (Client.targetId props) (Client.targetType props).
Proof.
  intros Hd Hty Hvt Ha Hsync Hne out. split.
  - apply (display_in_sync gen voter d props vt now st Client.handleVote); try done.
    + intros r Hr. unfold Client.handleVote. by rewrite Ha, Hr.
    + intros r Hr. unfold Client.handleVote. by rewrite Ha, Hr.
  - apply (display_in_sync gen voter d props vt now st Client.compact_handleVote); try done.
    + intros r Hr. unfold Client.compact_handleVote. by rewrite Ha, Hr.
    + intros r Hr. unfold Client.compact_handleVote. by rewrite Ha, Hr.
Qed.

(** X19.  A vote that fails.  When the route does not answer 200 the
    database is unchanged, and when it does not answer 200 or the user
    is not signed in, neither handler changes the vote, the count or
    what it reports through [onVoteChange]; the full handler shows the
    login message to a user who is not signed in and ends loading
    otherwise. *)
Theorem failed_vote_keeps_the_display gen auth request d props vt now st :
  let out := POST gen auth request d in
  status out.1.2 ≠ 200 ∨ Client.isAuthenticated props = false →
  let shown := Client.handleVote props vt now out.1.2 st in
  let compact := Client.compact_handleVote props vt now out.1.2 st in
  (status out.1.2 ≠ 200 → out.1.1 = d)
  ∧ Client.userVote shown = Client.userVote st
  ∧ Client.voteCount shown = Client.voteCount st
  ∧ Client.onVoteChange shown = Client.onVoteChange st
  ∧ Client.showLoginMessage shown
    = (if Client.isAuthenticated props then Client.showLoginMessage st else true)
  ∧ Client.isLoading shown
    = (if Client.isAuthenticated props then false else Client.isLoading st)
  ∧ Client.userVote compact = Client.userVote st
  ∧ Client.voteCount compact = Client.voteCount st
  ∧ Client.onVoteChange compact = Client.onVoteChange st.
Proof.
  intros out H shown compact. subst shown compact.
  unfold Client.handleVote, Client.compact_handleVote.
  destruct (POST_outcome gen auth request d) as (H1 & _). fold out in H1.
  destruct (Client.isAuthenticated props) eqn:Ha; simpl; [|done].
  destruct H as [H|H]; [|done].
  assert (Client.vote out.1.2 = false) as ->; [|done].
  destruct (Client.vote out.1.2) eqn:Ev; [|done].
  by apply vote_iff_200 in Ev.
Qed.

Import Buttons.

(** X20.  The buttons after they are mounted.  When [currentVotes] is
    the stored score of the target, the state after [loadUserVote] shows
    the stored score and, for a signed-in user, the user's stored stance
    on the target; without a signed-in user no vote is recorded; the
    count is [currentVotes] and [onVoteChange] has not been called. *)
Theorem mounted_buttons_show_the_stored_vote props auth voter created_at d :
  score d (Client.targetType props) (Client.targetId props)
  = Some (Client.currentVotes props) →
  let st := loadUserVote props auth created_at d (mounted props) in
  (Client.isAuthenticated props = true → auth = signed_in voter →
   in_sync st d voter (Client.targetId props) (Client.targetType props))
  ∧ (Client.isAuthenticated props = false ∨ unauthenticated auth →
     recorded st = NoVote)
  ∧ Client.voteCount st = Client.currentVotes props
  ∧ Client.onVoteChange st = [].
Proof.
  intros Hs st. subst st. unfold loadUserVote.
  split_and!.
  - intros -> ->. simpl. split; [done|].
    unfold recorded, effective_state, getUserVote, signed_in, select_votes. simpl.
    destruct (map_to_list _) as [|[j r] [|]]; done.
  - intros [->|Hu]; [done|].
    destruct (Client.isAuthenticated props); [|done]. unfold recorded. simpl.
    assert (getUserVote auth (Client.targetId props) (Client.targetType props) d = None)
      as ->; [|done].
    unfold getUserVote. destruct Hu as [->| ->]; [done|by destruct (authError auth)].
  - by destruct (Client.isAuthenticated props).
  - by destruct (Client.isAuthenticated props).
Qed.

(** *** The properties at concrete inputs *)

Lemma two_questions_reaches_retargeted : reachable two_questions retargeted.
Proof. unfold retargeted. do 2 apply reachable_step. apply reachable_refl. Qed.

Lemma two_questions_reaches_upvoted : reachable_keeping two_questions upvoted.
Proof. unfold upvoted. apply reachable_keeping_step; [apply reachable_keeping_refl|done]. Qed.

Lemma constraints_always_hold_witness :
  initial two_questions ∧ reachable two_questions retargeted
  ∧ constraints_hold retargeted.
Proof.
  split_and!; [apply two_questions_initial|apply two_questions_reaches_retargeted|].
  exact (proj1 (constraints_always_hold two_questions retargeted two_questions_initial
                  two_questions_reaches_retargeted)).
Defined.

Lemma score_follows_votes_witness :
  initial two_questions ∧ reachable_keeping two_questions upvoted
  ∧ score_consistent upvoted.
Proof.
  split_and!; [apply two_questions_initial|apply two_questions_reaches_upvoted|].
  exact (score_follows_votes two_questions upvoted two_questions_initial
           two_questions_reaches_upvoted).
Defined.

Lemma trigger_touches_one_score_witness :
  checked_event (TG_INSERT (upvote_on 1))
  ∧ update_vote_count (TG_INSERT (upvote_on 1)) two_questions
    = Some (set_questions {[1%N := 1; 2%N := 0]} two_questions)
  ∧ votes (set_questions {[1%N := 1; 2%N := 0]} two_questions) = votes two_questions.
Proof.
  assert (update_vote_count (TG_INSERT (upvote_on 1)) two_questions
          = Some (set_questions {[1%N := 1; 2%N := 0]} two_questions)) as He
    by by vm_compute.
  split_and!; [reflexivity|exact He|].
  exact (proj1 (trigger_touches_one_score (TG_INSERT (upvote_on 1)) two_questions
                  (set_questions {[1%N := 1; 2%N := 0]} two_questions) eq_refl He)).
Defined.

Lemma trigger_without_target_row_witness :
  checked_event (TG_INSERT (upvote_on 1))
  ∧ score no_questions (touched_kind (TG_INSERT (upvote_on 1)))
      (touched_id (TG_INSERT (upvote_on 1))) = None
  ∧ update_vote_count (TG_INSERT (upvote_on 1)) no_questions = Some no_questions.
Proof.
  split_and!; [reflexivity|reflexivity|].
  exact (trigger_without_target_row (TG_INSERT (upvote_on 1)) no_questions
           eq_refl eq_refl).
Defined.

Lemma vote_at_the_bound_is_refused_witness :
  vote_type (upvote_on 1) = "upvote"
  ∧ score at_the_bound (target_type (upvote_on 1)) (target_id (upvote_on 1))
    = Some int4_max
  ∧ exec (INSERT 10 (upvote_on 1)) at_the_bound = at_the_bound.
Proof.
  split_and!; [reflexivity|reflexivity|].
  exact (proj1 (proj2 (vote_at_the_bound_is_refused 10 (upvote_on 1) at_the_bound
                         (or_introl (conj eq_refl eq_refl))))).
Defined.

Lemma held_at_the_bound_constraints : constraints_hold held_at_the_bound.
Proof.
  split; [split_and!|split].
  - change (votes held_at_the_bound) with ({[10%N := upvote_on 1]} : gmap uuid vote).
    by apply map_Forall_singleton.
  - change (votes held_at_the_bound) with ({[10%N := upvote_on 1]} : gmap uuid vote).
    intros i j r r' [<- _]%lookup_singleton_Some [<- _]%lookup_singleton_Some _.
    done.
  - change (votes held_at_the_bound) with ({[10%N := upvote_on 1]} : gmap uuid vote).
    apply map_Forall_singleton. by vm_compute.
  - change (questions held_at_the_bound) with ({[1%N := 2147483647]} : gmap uuid Z).
    apply map_Forall_singleton. by vm_compute.
  - change (answers held_at_the_bound) with (∅ : gmap uuid Z).
    apply map_Forall_empty.
Qed.

Lemma rewriting_a_row_at_the_bound_is_refused_witness :
  constraints_hold held_at_the_bound
  ∧ votes held_at_the_bound !! 10%N = Some (upvote_on 1)
  ∧ vote_type (upvote_on 1) = "upvote"
  ∧ score held_at_the_bound (target_type (upvote_on 1)) (target_id (upvote_on 1))
    = Some int4_max
  ∧ apply (UPDATE 10 10 (upvote_on 1)) held_at_the_bound
    = Error numeric_value_out_of_range.
Proof.
  split_and!; [apply held_at_the_bound_constraints|reflexivity|reflexivity|reflexivity|].
  exact (proj1 (rewriting_a_row_at_the_bound_is_refused 10 (upvote_on 1)
                  held_at_the_bound held_at_the_bound_constraints eq_refl
                  (or_introl (conj eq_refl eq_refl)))).
Defined.

Lemma policies_protect_other_rows_witness :
  votes upvoted !! 10%N = Some (upvote_on 1)
  ∧ own_row (Some 8%N) (upvote_on 1) = false
  ∧ votes (after (through_policies (Some 8%N) (DELETE 10) upvoted) upvoted) !! 10%N
    = Some (upvote_on 1).
Proof.
  split_and!; [reflexivity|reflexivity|].
  exact (policies_protect_other_rows (Some 8%N) (DELETE 10) upvoted 10 (upvote_on 1)
           eq_refl eq_refl).
Defined.

Lemma insert_policy_accepts_another_users_id_witness :
  (8%N ≠ 7%N) ∧ "question" ∈ kinds ∧ "upvote" ∈ directions
  ∧ no_vote two_questions 7 1 "question" ∧ 7%N ∈ profiles two_questions
  ∧ votes two_questions !! 10%N = None
  ∧ fits two_questions "question" 1 (vote_value "upvote")
  ∧ ∃ d', through_policies (Some 8%N) (INSERT 10 (upvote_on 1)) two_questions
          = runs (Ok d')
          ∧ own_row (Some 8%N) (upvote_on 1) = false.
Proof.
  assert (8%N ≠ 7%N) as Hne by done.
  assert (7%N ∈ profiles two_questions) as Hp by by vm_compute.
  split_and!;
    [exact Hne|apply question_kind|apply upvote_direction|apply two_questions_no_vote
    |exact Hp|reflexivity|apply two_questions_fits|].
  destruct (insert_policy_accepts_another_users_id 8 7 10 1 "question" "upvote"
              two_questions Hne question_kind upvote_direction
              (two_questions_no_vote 7 1 "question") Hp eq_refl two_questions_fits)
    as (d' & H1 & H2 & _).
  exists d'. by split.
Defined.

Lemma POST_keeps_constraints_witness :
  constraints_hold two_questions
  ∧ constraints_hold
      (POST 10 (signed_in 7) (submit 1 "question" "upvote") two_questions).1.1.
Proof.
  split; [apply two_questions_constraints|].
  exact (proj1 (POST_keeps_constraints 10 (signed_in 7) (submit 1 "question" "upvote")
                  two_questions two_questions_constraints)).
Defined.



Lemma vote_changes_only_its_own_row_witness :
  constraints_hold upvoted
  ∧ profiles (submitVote 11 7 2 "question" "downvote" upvoted).1.1 = profiles upvoted.
Proof.
  split; [apply upvoted_constraints|].
  exact (proj1 (vote_changes_only_its_own_row 11 7 2 "question" "downvote" upvoted
                  upvoted_constraints)).
Defined.

Lemma stance_after_vote_witness :
  constraints_hold upvoted ∧ "question" ∈ kinds ∧ "downvote" ∈ directions
  ∧ status (submitVote 11 7 1 "question" "downvote" upvoted).1.2 = 200
  ∧ effective_state (submitVote 11 7 1 "question" "downvote" upvoted).1.1 7 1 "question"
    = if decide (effective_state upvoted 7 1 "question" = state_of "downvote")
      then NoVote else state_of "downvote".
Proof.
  split_and!;
    [apply upvoted_constraints|apply question_kind|apply downvote_direction|reflexivity|].
  exact (stance_after_vote 11 7 1 "question" "downvote" upvoted upvoted_constraints
           question_kind downvote_direction eq_refl).
Defined.

Lemma getUserVote_after_vote_witness :
  constraints_hold upvoted ∧ "question" ∈ kinds ∧ "upvote" ∈ directions
  ∧ status (submitVote 11 7 1 "question" "upvote" upvoted).1.2 = 200
  ∧ ((effective_state upvoted 7 1 "question" = state_of "upvote"
      ∧ getUserVote (signed_in 7) 1 "question"
          (submitVote 11 7 1 "question" "upvote" upvoted).1.1 = None)
     ∨ (effective_state upvoted 7 1 "question" ≠ state_of "upvote"
        ∧ ∃ i, getUserVote (signed_in 7) 1 "question"
                 (submitVote 11 7 1 "question" "upvote" upvoted).1.1
               = Some (i, mk_vote (Some 7%N) 1 "question" "upvote"))).
Proof.
  split_and!;
    [apply upvoted_constraints|apply question_kind|apply upvote_direction|reflexivity|].
  exact (getUserVote_after_vote 11 7 1 "question" "upvote" upvoted upvoted_constraints
           question_kind upvote_direction eq_refl).
Defined.

Lemma switching_back_restores_witness :
  constraints_hold upvoted ∧ "question" ∈ kinds ∧ "downvote" ∈ directions
  ∧ holds_vote upvoted 7 1 "question" 10 (upvote_on 1)
  ∧ vote_type (upvote_on 1) ≠ "downvote"
  ∧ status (submitVote 11 7 1 "question" "downvote" upvoted).1.2 = 200
  ∧ (submitVote 12 7 1 "question" (vote_type (upvote_on 1))
       (submitVote 11 7 1 "question" "downvote" upvoted).1.1).1.1 = upvoted.
Proof.
  assert (vote_type (upvote_on 1) ≠ "downvote") as Hne by done.
  split_and!;
    [apply upvoted_constraints|apply question_kind|apply downvote_direction
    |apply upvoted_holds|exact Hne|reflexivity|].
  exact (proj2 (switching_back_restores 11 12 7 1 "question" "downvote" upvoted 10
                  (upvote_on 1) upvoted_constraints question_kind downvote_direction
                  upvoted_holds Hne eq_refl)).
Defined.

Lemma shown_state_in_sync : in_sync shown_state upvoted 7 1 "question".
Proof. split; reflexivity. Qed.

Lemma upvoted_is_not_down : effective_state upvoted 7 1 "question" ≠ state_of "downvote".
Proof. by vm_compute. Qed.

Lemma display_follows_server_witness :
  let now := "2025-07-12T10:05:00.000Z" in
  let out := submitVote 11 7 1 "question" "downvote" upvoted in
  constraints_hold upvoted ∧ Client.targetType shown_props ∈ kinds
  ∧ "downvote" ∈ directions ∧ Client.isAuthenticated shown_props = true
  ∧ in_sync shown_state upvoted 7 (Client.targetId shown_props)
      (Client.targetType shown_props)
  ∧ effective_state upvoted 7 (Client.targetId shown_props)
      (Client.targetType shown_props) ≠ state_of "downvote"
  ∧ in_sync (Client.handleVote shown_props "downvote" now out.1.2 shown_state)
      out.1.1 7 1 "question".
Proof.
  intros now out.
  split_and!;
    [apply upvoted_constraints|apply question_kind|apply downvote_direction|reflexivity
    |apply shown_state_in_sync|apply upvoted_is_not_down|].
  exact (proj1 (display_follows_server 11 7 upvoted shown_props "downvote" now
                  shown_state upvoted_constraints question_kind downvote_direction
                  eq_refl shown_state_in_sync upvoted_is_not_down)).
Defined.

Lemma failed_vote_keeps_the_display_witness :
  let now := "2025-07-12T10:05:00.000Z" in
  let out := POST 10 anonymous vote_on_comment upvoted in
  status out.1.2 ≠ 200
  ∧ Client.voteCount (Client.handleVote shown_props "upvote" now out.1.2 shown_state)
    = Client.voteCount shown_state.
Proof.
  intros now out.
  assert (status out.1.2 ≠ 200) as Hs by done.
  split; [exact Hs|].
  exact (proj1 (proj2 (proj2 (failed_vote_keeps_the_display 10 anonymous vote_on_comment
                                upvoted shown_props "upvote" now shown_state
                                (or_introl Hs))))).
Defined.

Lemma upvoted_shown_score :
  score upvoted (Client.targetType shown_props) (Client.targetId shown_props)
  = Some (Client.currentVotes shown_props).
Proof. reflexivity. Qed.

Lemma mounted_buttons_show_the_stored_vote_witness :
  score upvoted (Client.targetType shown_props) (Client.targetId shown_props)
  = Some (Client.currentVotes shown_props)
  ∧ in_sync
      (loadUserVote shown_props (signed_in 7) "2025-07-12T10:00:00.000Z" upvoted
         (mounted shown_props))
      upvoted 7 (Client.targetId shown_props) (Client.targetType shown_props).
Proof.
  split; [apply upvoted_shown_score|].
  exact (proj1 (mounted_buttons_show_the_stored_vote shown_props (signed_in 7) 7
                  "2025-07-12T10:00:00.000Z" upvoted upvoted_shown_score)
           eq_refl eq_refl).
Defined.

End VotePath.

(** ** The page list of [Pagination] *)

Module PaginationFacts.
Import Pagination.

Lemma seqZ_sorted m n : StronglySorted Z.lt (seqZ m n).
Proof.
  remember (Z.to_nat n) as k eqn:Hk. revert m n Hk.
  induction k as [|k IH]; intros m n Hk.
  - rewrite seqZ_nil by lia. constructor.
  - rewrite seqZ_cons by lia. apply StronglySorted_cons. split.
    + apply Forall_seqZ. lia.
    + apply IH. lia.
Qed.

Lemma numbers_push_range first last :
  numbers (push_range first last) = seqZ first (last - first + 1).
Proof.
  unfold numbers, push_range. induction (seqZ first (last - first + 1)) as [|x l IH];
    [done|]. rewrite fmap_cons. simpl. by f_equal.
Qed.

Lemma numbers_app l1 l2 : numbers (l1 ++ l2) = numbers l1 ++ numbers l2.
Proof. apply omap_app. Qed.

(** The page numbers of the four shapes of the list. *)
Lemma numbers_getVisiblePages currentPage totalPages maxVisiblePages :
  let half := maxVisiblePages `div` 2 in
  numbers (getVisiblePages currentPage totalPages maxVisiblePages)
  = if totalPages <=? maxVisiblePages then seqZ 1 totalPages
    else if currentPage <=? half then seqZ 1 (maxVisiblePages - 1) ++ [totalPages]
    else if totalPages - half <? currentPage then
      1 :: seqZ (totalPages - maxVisiblePages + 2) (maxVisiblePages - 1)
    else 1 :: seqZ (currentPage - half + 1) (2 * half - 1) ++ [totalPages].
Proof.
  intros half. unfold getVisiblePages. fold half.
  destruct (totalPages <=? maxVisiblePages).
  { rewrite numbers_push_range. f_equal. lia. }
  destruct (currentPage <=? half).
  { rewrite numbers_app, numbers_push_range. simpl. do 2 f_equal. lia. }
  destruct (totalPages - half <? currentPage).
  { rewrite numbers_app, numbers_push_range. simpl. do 2 f_equal. lia. }
  rewrite !numbers_app, numbers_push_range. simpl. do 3 f_equal. lia.
Qed.

Lemma half_bounds maxVisiblePages :
  2 ≤ maxVisiblePages →
  let half := maxVisiblePages `div` 2 in
  1 ≤ half ∧ 2 * half ≤ maxVisiblePages ∧ maxVisiblePages ≤ 2 * half + 1.
Proof.
  intros Hmax half. subst half. pose proof (Z.div_mod maxVisiblePages 2).
  pose proof (Z.mod_pos_bound maxVisiblePages 2). lia.
Qed.

Lemma visible_pages_in_range currentPage totalPages maxVisiblePages :
  2 ≤ maxVisiblePages → 1 ≤ currentPage ≤ totalPages →
  Forall (λ n, 1 ≤ n ≤ totalPages)
    (numbers (getVisiblePages currentPage totalPages maxVisiblePages)).
Proof.
  intros Hmax Hcur. rewrite numbers_getVisiblePages.
  pose proof (half_bounds maxVisiblePages Hmax) as Hhalf. simpl in Hhalf.
  set (half := maxVisiblePages `div` 2) in *.
  destruct (Z.leb_spec totalPages maxVisiblePages); [apply Forall_seqZ; lia|].
  destruct (Z.leb_spec currentPage half).
  { apply Forall_app. split; [apply Forall_seqZ; lia|]. repeat constructor; lia. }
  destruct (Z.ltb_spec (totalPages - half) currentPage).
  { constructor; [lia|]. apply Forall_seqZ. lia. }
  constructor; [lia|]. apply Forall_app.
  split; [apply Forall_seqZ; lia|]. repeat constructor; lia.
Qed.

(** X21.  The page list.  For at least two visible pages and a current
    page between 1 and the last page, the numbers returned by
    [getVisiblePages] are strictly increasing, lie between 1 and the
    last page, and include the first page, the last page and the current
    page. *)
Theorem visible_pages_are_ordered currentPage totalPages maxVisiblePages :
  2 ≤ maxVisiblePages → 1 ≤ currentPage ≤ totalPages →
  let shown := numbers (getVisiblePages currentPage totalPages maxVisiblePages) in
  StronglySorted Z.lt shown
  ∧ Forall (λ n, 1 ≤ n ≤ totalPages) shown
  ∧ 1 ∈ shown ∧ totalPages ∈ shown ∧ currentPage ∈ shown.
Proof.
  intros Hmax Hcur shown. split; [|split; [by apply visible_pages_in_range|]];
    subst shown; rewrite numbers_getVisiblePages;
    pose proof (half_bounds maxVisiblePages Hmax) as Hhalf; simpl in Hhalf;
    set (half := maxVisiblePages `div` 2) in *.
  - destruct (Z.leb_spec totalPages maxVisiblePages); [apply seqZ_sorted|].
    destruct (Z.leb_spec currentPage half).
    { apply StronglySorted_app_2; [|apply seqZ_sorted|repeat constructor].
      intros x1 x2 Hx1%elem_of_seqZ Hx2%list_elem_of_singleton. lia. }
    destruct (Z.ltb_spec (totalPages - half) currentPage).
    { apply StronglySorted_cons. split; [apply Forall_seqZ; lia|apply seqZ_sorted]. }
    apply StronglySorted_cons. split.
    + apply Forall_app. split; [apply Forall_seqZ; lia|]. repeat constructor; lia.
    + apply StronglySorted_app_2; [|apply seqZ_sorted|repeat constructor].
      intros x1 x2 Hx1%elem_of_seqZ Hx2%list_elem_of_singleton. lia.
  - destruct (Z.leb_spec totalPages maxVisiblePages).
    { split_and!; apply elem_of_seqZ; lia. }
    destruct (Z.leb_spec currentPage half).
    { split_and!.
      - apply elem_of_app. left. apply elem_of_seqZ. lia.
      - apply elem_of_app. right. by apply list_elem_of_singleton.
      - apply elem_of_app. left. apply elem_of_seqZ. lia. }
    destruct (Z.ltb_spec (totalPages - half) currentPage).
    { split_and!.
      - apply elem_of_cons. by left.
      - apply elem_of_cons. right. apply elem_of_seqZ. lia.
      - apply elem_of_cons. right. apply elem_of_seqZ. lia. }
    split_and!.
    + apply elem_of_cons. by left.
    + apply elem_of_cons. right. apply elem_of_app. right.
      by apply list_elem_of_singleton.
    + apply elem_of_cons. right. apply elem_of_app. left. apply elem_of_seqZ. lia.
Qed.

(** X22.  Length of the page list.  With more pages than
    [maxVisiblePages], the list has [maxVisiblePages] numbers and one
    ellipsis when the current page is within half of either end, and [2
    * floor(maxVisiblePages / 2) + 1] numbers and two ellipses in
    between: [maxVisiblePages] for an odd value, one more for an even
    value. *)
Theorem visible_pages_count currentPage totalPages maxVisiblePages :
  2 ≤ maxVisiblePages → maxVisiblePages < totalPages →
  1 ≤ currentPage ≤ totalPages →
  let half := maxVisiblePages `div` 2 in
  let l := getVisiblePages currentPage totalPages maxVisiblePages in
  let shown := Z.of_nat (length (numbers l)) in
  (currentPage ≤ half ∨ totalPages - half < currentPage →
     shown = maxVisiblePages ∧ Z.of_nat (length l) = maxVisiblePages + 1)
  ∧ (half < currentPage ≤ totalPages - half →
     shown = 2 * half + 1 ∧ Z.of_nat (length l) = 2 * half + 3)
  ∧ maxVisiblePages ≤ shown ≤ maxVisiblePages + 1
  ∧ (Z.odd maxVisiblePages = true → shown = maxVisiblePages).
Proof.
  intros Hmax Htot Hcur half l shown.
  assert (1 ≤ half ∧ (maxVisiblePages = 2 * half ∧ Z.odd maxVisiblePages = false
                      ∨ maxVisiblePages = 2 * half + 1)) as Hhalf.
  { subst half. pose proof (Z.div_mod maxVisiblePages 2).
    pose proof (Z.mod_pos_bound maxVisiblePages 2).
    rewrite (Zodd_mod maxVisiblePages).
    destruct (decide (maxVisiblePages `mod` 2 = 0)) as [E|E].
    - rewrite E. simpl. lia.
    - assert (maxVisiblePages `mod` 2 = 1) as E' by lia. lia. }
  assert (if (currentPage <=? half) || (totalPages - half <? currentPage)
          then shown = maxVisiblePages ∧ Z.of_nat (length l) = maxVisiblePages + 1
          else shown = 2 * half + 1 ∧ Z.of_nat (length l) = 2 * half + 3) as Hshape.
  { subst shown l. rewrite numbers_getVisiblePages. unfold getVisiblePages, push_range.
    fold half. rewrite (proj2 (Z.leb_gt totalPages maxVisiblePages)) by lia.
    destruct (currentPage <=? half); simpl.
    { rewrite !length_app, length_fmap, !length_seqZ. simpl. lia. }
    destruct (totalPages - half <? currentPage); simpl.
    { rewrite length_fmap, !length_seqZ. lia. }
    rewrite !length_app, length_fmap, !length_seqZ. simpl. lia. }
  destruct (Z.leb_spec currentPage half), (Z.ltb_spec (totalPages - half) currentPage);
    simpl in Hshape; split_and!; intros; try lia.
  destruct Hhalf as [_ [[_ ?]|?]]; [congruence|lia].
Qed.

(** X23.  [handlePageChange] on what the component shows.  A click on a
    listed page number calls [onPageChange] with that page unless it is
    the current page; the previous and next buttons call it with the
    neighbouring page unless the current page is the first or the last. *)
Theorem shown_pages_can_be_opened currentPage totalPages maxVisiblePages :
  2 ≤ maxVisiblePages → 1 ≤ currentPage ≤ totalPages →
  (∀ n, n ∈ numbers (getVisiblePages currentPage totalPages maxVisiblePages) →
        handlePageChange currentPage totalPages n
        = if decide (n = currentPage) then None else Some n)
  ∧ handlePageChange currentPage totalPages (currentPage - 1)
    = (if decide (currentPage = 1) then None else Some (currentPage - 1))
  ∧ handlePageChange currentPage totalPages (currentPage + 1)
    = (if decide (currentPage = totalPages) then None else Some (currentPage + 1)).
Proof.
  intros Hmax Hcur.
  pose proof (visible_pages_in_range currentPage totalPages maxVisiblePages Hmax Hcur)
    as Hall.
  rewrite Forall_forall in Hall. unfold handlePageChange. split_and!.
  - intros n Hn. specialize (Hall n Hn). simpl in Hall.
    case_decide as E.
    + subst. by rewrite Z.eqb_refl.
    + rewrite (proj2 (Z.eqb_neq _ _) E). simpl.
      by rewrite (proj2 (Z.leb_le 1 n)), (proj2 (Z.leb_le n totalPages)) by lia.
  - case_decide as E.
    + subst. reflexivity.
    + rewrite (proj2 (Z.eqb_neq _ _)) by lia. simpl.
      by rewrite (proj2 (Z.leb_le 1 _)), (proj2 (Z.leb_le _ totalPages)) by lia.
  - case_decide as E.
    + rewrite (proj2 (Z.leb_gt (currentPage + 1) totalPages)) by lia.
      by rewrite andb_false_r.
    + rewrite (proj2 (Z.eqb_neq _ _)) by lia. simpl.
      by rewrite (proj2 (Z.leb_le 1 _)), (proj2 (Z.leb_le _ totalPages)) by lia.
Qed.

(** X24.  [PaginationInfo].  For a current page that has an item, the
    range shown runs from [startItem] to [endItem] with 1 <= [startItem]
    <= [endItem] <= [totalItems] and holds at most [itemsPerPage] items,
    exactly that many on a full page. *)
Theorem pagination_info_range currentPage itemsPerPage totalItems :
  1 ≤ itemsPerPage → 1 ≤ currentPage →
  (currentPage - 1) * itemsPerPage < totalItems →
  let first := startItem currentPage itemsPerPage in
  let last := endItem currentPage itemsPerPage totalItems in
  1 ≤ first ≤ last ∧ last ≤ totalItems
  ∧ last - first + 1 ≤ itemsPerPage
  ∧ (currentPage * itemsPerPage ≤ totalItems → last - first + 1 = itemsPerPage).
Proof.
  intros Hper Hcur Hlt first last. subst first last. unfold startItem, endItem.
  split_and!; try nia.
Qed.

Lemma visible_pages_are_ordered_witness :
  2 ≤ 7 ∧ 1 ≤ 10 ≤ 20
  ∧ StronglySorted Z.lt (numbers (getVisiblePages 10 20 7)).
Proof.
  assert (2 ≤ 7) as H1 by lia. assert (1 ≤ 10 ≤ 20) as H2 by lia.
  refine (conj H1 (conj H2 _)).
  exact (proj1 (visible_pages_are_ordered 10 20 7 H1 H2)).
Defined.

Lemma visible_pages_count_witness :
  2 ≤ 7 ∧ 7 < 20 ∧ 1 ≤ 10 ≤ 20
  ∧ 7 ≤ Z.of_nat (length (numbers (getVisiblePages 10 20 7))) ≤ 7 + 1.
Proof.
  assert (2 ≤ 7) as H1 by lia. assert (7 < 20) as H2 by lia.
  assert (1 ≤ 10 ≤ 20) as H3 by lia.
  refine (conj H1 (conj H2 (conj H3 _))).
  exact (proj1 (proj2 (proj2 (visible_pages_count 10 20 7 H1 H2 H3)))).
Defined.

Lemma shown_pages_can_be_opened_witness :
  2 ≤ 7 ∧ 1 ≤ 10 ≤ 20
  ∧ handlePageChange 10 20 (10 + 1)
    = if decide (10 = 20) then None else Some (10 + 1).
Proof.
  assert (2 ≤ 7) as H1 by lia. assert (1 ≤ 10 ≤ 20) as H2 by lia.
  refine (conj H1 (conj H2 _)).
  exact (proj2 (proj2 (shown_pages_can_be_opened 10 20 7 H1 H2))).
Defined.

Lemma pagination_info_range_witness :
  1 ≤ 10 ∧ 1 ≤ 3 ∧ (3 - 1) * 10 < 25
  ∧ endItem 3 10 25 ≤ 25.
Proof.
  assert (1 ≤ 10) as H1 by lia. assert (1 ≤ 3) as H2 by lia.
  assert ((3 - 1) * 10 < 25) as H3 by lia.
  split_and!; [exact H1|exact H2|exact H3|].
  exact (proj1 (proj2 (pagination_info_range 3 10 25 H1 H2 H3))).
Defined.

End PaginationFacts.
